(** * SGLD: a shallow embedding of [devinterp/optim/sgld.py]

    The optimizer of [src/devinterp/optim/sgld.py] (class [SGLD], methods
    [__init__] and [step]) is embedded as functions over an explicit machine
    state.  Tensor elements are real numbers (floating-point rounding is not
    modelled); tensors that live across calls (parameter data and the saved
    initial parameters) sit in a store of tensor objects, so that in-place
    updates and [clone] are visible as such.  [torch.normal] reads its
    samples from an explicit generator; exceptions are results, and leave
    what was mutated before them mutated.

    The file has four parts: the model of the source, the vocabulary in
    which its properties are stated, the lemmas about the model, and the
    properties themselves, each with the number of the claim it settles. *)

From Stdlib Require Import Reals Lra String.
From stdpp Require Import base decidable option list gmap strings functions.

Open Scope R_scope.

(** ** Python comparisons on floats *)

#[global] Instance R_eq_dec : EqDecision R := Req_dec_T.
#[global] Instance R_le_dec : RelDecision Rle := Rle_dec.

(** [x != 0] / truthiness of a float. *)
Definition nonzero (x : R) : bool := bool_decide (x ≠ 0).

(** [bounding_box_size] is [None] or a float.  [ne_zero b] is the Python
    expression [b != 0] ([None != 0] is [True]); [truthy b] is [b] used as a
    condition ([None] and [0.0] are false). *)
Definition ne_zero (b : option R) : bool :=
  match b with
  | None => true
  | Some x => nonzero x
  end.

Definition truthy (b : option R) : bool :=
  match b with
  | None => false
  | Some x => nonzero x
  end.

(** ** Tensors *)

Inductive dtype := Float16 | BFloat16 | Float32 | Float64.
Inductive device := Cpu | Cuda (index : nat).

#[global] Instance dtype_eq_dec : EqDecision dtype.
Proof. solve_decision. Defined.
#[global] Instance device_eq_dec : EqDecision device.
Proof. solve_decision. Defined.

(** A tensor, flattened: its elements in row-major order, with the device
    and dtype it carries.  Its size is the number of elements. *)
Record Tensor := mkTensor {
  elems : list R;
  t_device : device;
  t_dtype : dtype }.

Definition size (t : Tensor) : nat := length (elems t).

(** [t * c] *)
Definition mul_scalar (t : Tensor) (c : R) : Tensor :=
  mkTensor ((λ x, x * c) <$> elems t) (t_device t) (t_dtype t).

(** [t + c] and [t - c] for a Python float [c] *)
Definition add_scalar (t : Tensor) (c : R) : Tensor :=
  mkTensor ((λ x, x + c) <$> elems t) (t_device t) (t_dtype t).

Definition sub_scalar (t : Tensor) (c : R) : Tensor :=
  mkTensor ((λ x, x - c) <$> elems t) (t_device t) (t_dtype t).

(** The results of [t.add_(other, alpha=alpha)], [t - other] and
    [torch.clamp] on tensors of one size; the operations below check the
    sizes first. *)
Definition add_alpha_val (t other : Tensor) (alpha : R) : Tensor :=
  mkTensor (zip_with (λ x y, x + alpha * y) (elems t) (elems other))
           (t_device t) (t_dtype t).

Definition sub_val (t other : Tensor) : Tensor :=
  mkTensor (zip_with Rminus (elems t) (elems other)) (t_device t) (t_dtype t).

(** [torch.clamp(x, min=lo, max=hi)] on one element: [min(max(x, lo), hi)]. *)
Definition clamp1 (x lo hi : R) : R := Rmin (Rmax x lo) hi.

Definition clamp_val (t lo hi : Tensor) : Tensor :=
  mkTensor (zip_with (λ x b, clamp1 x b.1 b.2) (elems t) (zip (elems lo) (elems hi)))
           (t_device t) (t_dtype t).

(** ** Parameters, groups and the optimizer object *)

(** Tensor objects that outlive a call are identified by their location
    in the store. *)
Definition loc := nat.
Bind Scope nat_scope with loc.

(** A parameter [p]: [p.data] is a tensor object in the store (updated in
    place by [step]), [p.grad] is [None] or a gradient tensor.  The
    parameter is the key of [self.state], identified by its object. *)
Record Param := mkParam {
  p_data : loc;
  p_grad : option Tensor }.

(** One entry of [self.param_groups]. *)
Record Group := mkGroup {
  params : list Param;
  lr : R;
  noise_level : R;
  weight_decay : R;
  localization : R;
  temperature : R;
  bounding_box_size : option R }.

(** The optimizer object.  [state] is [self.state], a
    [defaultdict(dict)] from parameters to dictionaries with string keys;
    the tensor stored under ["initial_param"] is held by reference.
    [noise] is [self.noise]: [None], or a list of tensors. *)
Record SGLD := mkSGLD {
  param_groups : list Group;
  state : gmap loc (gmap string loc);
  save_noise : bool;
  noise : option (list Tensor) }.

(** The random generator behind [torch.normal]: a sequence of standard
    normal samples and the position reached in it. *)
Record Generator := mkGenerator {
  samples : nat → R;
  cursor : nat }.

(** What surrounds the optimizer: the store of tensor objects with its
    allocation pointer, the generator, [torch.get_default_dtype()], and
    the warnings issued so far. *)
Record World := mkWorld {
  heap : loc → Tensor;
  next_loc : loc;
  rng : Generator;
  default_dtype : dtype;
  warnings : list string }.

(** The machine: the optimizer object [self] and the world. *)
Record Machine := mkMachine {
  self : SGLD;
  world : World }.

Definition set_self (f : SGLD → SGLD) (m : Machine) : Machine :=
  mkMachine (f (self m)) (world m).

Definition set_heap (f : (loc → Tensor) → (loc → Tensor)) (m : Machine) : Machine :=
  let w := world m in
  mkMachine (self m)
    (mkWorld (f (heap w)) (next_loc w) (rng w) (default_dtype w) (warnings w)).

Definition set_rng (f : Generator → Generator) (m : Machine) : Machine :=
  let w := world m in
  mkMachine (self m)
    (mkWorld (heap w) (next_loc w) (f (rng w)) (default_dtype w) (warnings w)).

Definition set_state (f : gmap loc (gmap string loc) → gmap loc (gmap string loc))
    (o : SGLD) : SGLD :=
  mkSGLD (param_groups o) (f (state o)) (save_noise o) (noise o).

Definition set_noise (n : option (list Tensor)) (o : SGLD) : SGLD :=
  mkSGLD (param_groups o) (state o) (save_noise o) n.

(** ** Exceptions and the monad of [step] *)

Inductive exn :=
  | KeyError (key : string)
  | AttributeError (msg : string)
  | RuntimeError (msg : string).

Inductive result (A : Type) :=
  | Ok (a : A)
  | Raise (e : exn).
Arguments Ok {A} a.
Arguments Raise {A} e.

(** A computation changes the machine and returns or raises; what was
    mutated before an exception stays mutated. *)
Definition M (A : Type) : Type := Machine → result A * Machine.

Definition ret {A} (a : A) : M A := λ m, (Ok a, m).

Definition bind {A B} (k : A → M B) (c : M A) : M B :=
  λ m, match c m with
       | (Ok a, m') => k a m'
       | (Raise e, m') => (Raise e, m')
       end.

Definition raise {A} (e : exn) : M A := λ m, (Raise e, m).

#[global] Instance M_ret : MRet M := @ret.
#[global] Instance M_bind : MBind M := @bind.

(** [for x in l: body(x)] *)
Fixpoint for_each {A} (l : list A) (body : A → M unit) : M unit :=
  match l with
  | [] => ret tt
  | x :: l' => body x;; for_each l' body
  end.

(** *** Primitive operations *)

(** Reading the tensor object at [l] (as in [p.data]). *)
Definition load (l : loc) : M Tensor := λ m, (Ok (heap (world m) l), m).

(** Binary elementwise operations on tensors of different sizes raise
    (broadcasting is not modelled). *)
Definition size_error : exn :=
  RuntimeError "The size of tensor a must match the size of tensor b".

(** [t.add_(other, alpha=alpha)] on a temporary [t]: the updated [t]. *)
Definition add_alpha (t other : Tensor) (alpha : R) : M Tensor :=
  if decide (size t = size other) then ret (add_alpha_val t other alpha)
  else raise size_error.

(** [t - other] *)
Definition sub (t other : Tensor) : M Tensor :=
  if decide (size t = size other) then ret (sub_val t other)
  else raise size_error.

(** [p.data.add_(other, alpha=alpha)]: in place, on the object at [l]. *)
Definition add_ (l : loc) (other : Tensor) (alpha : R) : M unit :=
  λ m, if decide (size (heap (world m) l) = size other)
       then (Ok tt, set_heap <[l := add_alpha_val (heap (world m) l) other alpha]> m)
       else (Raise size_error, m).

(** [torch.clamp_(p.data, min=lo, max=hi)]: in place, on the object at [l]. *)
Definition clamp_ (l : loc) (lo hi : Tensor) : M unit :=
  λ m, if decide (size (heap (world m) l) = size lo ∧ size (heap (world m) l) = size hi)
       then (Ok tt, set_heap <[l := clamp_val (heap (world m) l) lo hi]> m)
       else (Raise size_error, m).

(** [group["lr"] ** 0.5], as the [alpha] of [add_]: for a negative float
    Python's power is a complex number, which [add_] rejects on a real
    tensor. *)
Definition pow_half (x : R) : M R :=
  if decide (0 <= x) then ret (sqrt x)
  else raise (RuntimeError "For non-complex input tensors, argument alpha must not be a complex number.").

(** [torch.normal(mean=mean, std=std, size=n, device=dev)]: [n] fresh
    samples, each [mean + std * z] for the next standard normal [z] of the
    generator.  No dtype is passed, so the tensor has the default dtype.
    A negative [std] is rejected. *)
Definition normal_val (g : Generator) (mean std : R) (n : nat)
    (dev : device) (dt : dtype) : Tensor :=
  mkTensor ((λ i, mean + std * samples g (cursor g + i)%nat) <$> seq 0 n) dev dt.

Definition advance (n : nat) (g : Generator) : Generator :=
  mkGenerator (samples g) (cursor g + n)%nat.

Definition torch_normal (mean std : R) (n : nat) (dev : device) : M Tensor :=
  λ m, if decide (0 <= std)
       then (Ok (normal_val (rng (world m)) mean std n dev (default_dtype (world m))),
             set_rng (advance n) m)
       else (Raise (RuntimeError "normal expects std >= 0.0"), m).

(** [self.state[p]]: the dictionary of [p], created empty on first access
    (a [defaultdict]). *)
Definition state_of (o : SGLD) (p : Param) : gmap string loc :=
  default ∅ (state o !! p_data p).

Definition self_state (p : Param) : M unit :=
  λ m, (Ok tt, set_self (set_state <[p_data p := state_of (self m) p]>) m).

(** [self.state[p]["initial_param"]], read as a tensor. *)
Definition initial_param (p : Param) : M Tensor :=
  λ m, match state_of (self m) p !! "initial_param"%string with
       | Some l => (Ok (heap (world m) l), m)
       | None => (Raise (KeyError "initial_param"), m)
       end.

(** [if self.save_noise: self.noise.append(noise)] *)
Definition record_noise (t : Tensor) : M unit :=
  λ m, if save_noise (self m)
       then match noise (self m) with
            | Some log => (Ok tt, set_self (set_noise (Some (log ++ [t]))) m)
            | None => (Raise (AttributeError "'NoneType' object has no attribute 'append'"), m)
            end
       else (Ok tt, m).

(** ** [SGLD.step] *)

(** Lines 101-108: [dw], the gradient term with the decay term and the
    localization term added to it. *)
Definition drift (g : Group) (p : Param) (grad : Tensor) : M Tensor :=
  let dw := mul_scalar grad (temperature g) in
  dw ← (if nonzero (weight_decay g)
        then w ← load (p_data p); add_alpha dw w (weight_decay g)
        else mret dw);
  if nonzero (localization g)
  then a ← initial_param p;
       w ← load (p_data p);
       d ← sub w a;
       add_alpha dw d (localization g)
  else mret dw.

(** Lines 100-118: the update of one parameter that has a gradient, up to
    and including the injected noise. *)
Definition langevin (g : Group) (p : Param) (grad : Tensor) : M unit :=
  self_state p;;
  dw ← drift g p grad;
  add_ (p_data p) dw (-0.5 * lr g);;
  n ← torch_normal 0 (noise_level g) (size dw) (t_device dw);
  record_noise n;;
  alpha ← pow_half (lr g);
  add_ (p_data p) n alpha.

(** Lines 120-126: [if group["bounding_box_size"]: torch.clamp_(...)]. *)
Definition rebound (g : Group) (p : Param) : M unit :=
  match bounding_box_size g with
  | Some b =>
      if nonzero b
      then a_min ← initial_param p;
           a_max ← initial_param p;
           clamp_ (p_data p) (sub_scalar a_min b) (add_scalar a_max b)
      else mret tt
  | None => mret tt
  end.

(** The body of the inner loop (lines 98-126). *)
Definition update_param (g : Group) (p : Param) : M unit :=
  match p_grad p with
  | None => mret tt
  | Some grad => langevin g p grad;; rebound g p
  end.

(** Line 95: [self.noise = []]. *)
Definition reset_noise : M unit :=
  λ m, (Ok tt, set_self (set_noise (Some [])) m).

(** Lines 94-126.  The argument [closure] is not used by the method. *)
Definition step : M unit :=
  reset_noise;;
  groups ← (λ m, (Ok (param_groups (self m)), m));
  for_each groups (λ g, for_each (params g) (update_param g)).

(** ** [SGLD.__init__] *)

(** The keyword arguments that become the [defaults] dictionary. *)
Record Defaults := mkDefaults {
  d_lr : R;
  d_noise_level : R;
  d_weight_decay : R;
  d_localization : R;
  d_temperature : R;
  d_bounding_box_size : option R }.

(** The default values of the signature. *)
Definition signature_defaults : Defaults :=
  mkDefaults 0.01 1 0 0 1 None.

(** One parameter group as passed to the constructor: its parameters and
    the options it overrides ([None]: the key is absent from the dict).  A
    plain list of parameters is one group that overrides nothing. *)
Record GroupSpec := mkGroupSpec {
  gs_params : list Param;
  gs_lr : option R;
  gs_noise_level : option R;
  gs_weight_decay : option R;
  gs_localization : option R;
  gs_temperature : option R;
  gs_bounding_box_size : option (option R) }.

Definition plain (ps : list Param) : GroupSpec :=
  mkGroupSpec ps None None None None None None.

(** [torch.optim.Optimizer.add_param_group]: keys the group does not set
    take the value of [defaults]. *)
Definition add_param_group (d : Defaults) (s : GroupSpec) : Group :=
  mkGroup (gs_params s)
          (default (d_lr d) (gs_lr s))
          (default (d_noise_level d) (gs_noise_level s))
          (default (d_weight_decay d) (gs_weight_decay s))
          (default (d_localization d) (gs_localization s))
          (default (d_temperature d) (gs_temperature s))
          (default (d_bounding_box_size d) (gs_bounding_box_size s)).

Definition noise_level_warning : string :=
  "Warning: noise_level in SGLD is unequal to one, this removes SGLD posterior sampling guarantees.".

Definition temperature_warning : string :=
  "Warning: temperature set to 1, LLC estimates will be off unless you know what you're doing. Use utils.optimal_temperature(dataloader) instead".

(** [warnings.warn(msg)] *)
Definition warn (msg : string) (w : World) : World :=
  mkWorld (heap w) (next_loc w) (rng w) (default_dtype w) (warnings w ++ [msg]).

(** Lines 91-92: [self.state[p]["initial_param"] = p.data.clone().detach()].
    The clone is a new tensor object with the elements of [p.data]. *)
Definition save_initial (m : Machine) (p : Param) : Machine :=
  let w := world m in
  let l := next_loc w in
  mkMachine
    (set_state <[p_data p := <["initial_param"%string := l]> (state_of (self m) p)]> (self m))
    (mkWorld (<[l := heap w (p_data p)]> (heap w)) (S l) (rng w)
             (default_dtype w) (warnings w)).

(** Lines 88-92. *)
Definition save_initial_group (m : Machine) (g : Group) : Machine :=
  if nonzero (localization g) || ne_zero (bounding_box_size g)
  then foldl save_initial m (params g)
  else m.

(** Lines 67-74: the two checks of the arguments. *)
Definition check_arguments (d : Defaults) (w : World) : World :=
  let w := if decide (d_noise_level d ≠ 1) then warn noise_level_warning w else w in
  if decide (d_temperature d = 1) then warn temperature_warning w else w.

(** Lines 56-92.  The optimizer is built in the world [w]; the result
    holds the new object and the world after construction. *)
Definition init (ps : list GroupSpec) (d : Defaults) (save : bool) (w : World)
    : Machine :=
  let w := check_arguments d w in
  let o := mkSGLD (add_param_group d <$> ps) ∅ save None in
  foldl save_initial_group (mkMachine o w) (param_groups o).

(** * Vocabulary of the specifications *)

(** The occurrences of parameters in the order [step] visits them. *)
Definition occurrences (gs : list Group) : list (Group * Param) :=
  g ← gs; (λ p, (g, p)) <$> params g.

(** The loop body at one occurrence. *)
Definition visit (gp : Group * Param) : M unit := update_param gp.1 gp.2.

(** The saved initial parameter of [p], as [self.state] has it. *)
Definition anchor_of (o : SGLD) (p : Param) : option loc :=
  state_of o p !! "initial_param"%string.

(** [frame L m m']: from [m] to [m'] the groups, the flag, the saved
    references, the sizes of all tensor objects and the sample sequence
    are kept, a noise list stays a list (and stays as it is when noise is
    not saved), and tensor objects outside [L] are untouched. *)
Record frame (L : loc → Prop) (m m' : Machine) : Prop := mkFrame {
  fr_groups : param_groups (self m') = param_groups (self m);
  fr_save : save_noise (self m') = save_noise (self m);
  fr_anchor : ∀ p, anchor_of (self m') p = anchor_of (self m) p;
  fr_size : ∀ l, size (heap (world m') l) = size (heap (world m) l);
  fr_heap : ∀ l, ¬ L l → heap (world m') l = heap (world m) l;
  fr_noise : is_Some (noise (self m)) → is_Some (noise (self m'));
  fr_log : save_noise (self m) = false → noise (self m') = noise (self m);
  fr_samples : samples (rng (world m')) = samples (rng (world m));
  fr_dtype : default_dtype (world m') = default_dtype (world m) }.

(** The computation [c] writes at most the tensor objects in [L], from
    any machine and whether it returns or raises. *)
Definition respects {A} (L : loc → Prop) (c : M A) : Prop :=
  ∀ m, frame L m (c m).2.

(** The tensor objects a run over [occ] may write: the data of the
    parameters that carry a gradient. *)
Definition written (occ : list (Group * Param)) (l : loc) : Prop :=
  ∃ gp, gp ∈ occ ∧ l = p_data gp.2 ∧ is_Some (p_grad gp.2).

(** The group reads the saved initial parameter in [step]: for the
    localization term or for the bounding box. *)
Definition needs_anchor (g : Group) : bool :=
  nonzero (localization g) || truthy (bounding_box_size g).

(** What the update of [p] with gradient [grad] needs in order to
    return: [lr] has a real square root, [torch.normal] accepts
    [noise_level], the gradient has the size of the parameter, and the
    saved initial parameter is there, of that size, where it is read. *)
Record ready (g : Group) (p : Param) (grad : Tensor) (m : Machine) : Prop := mkReady {
  rd_lr : 0 <= lr g;
  rd_noise_level : 0 <= noise_level g;
  rd_grad : size grad = size (heap (world m) (p_data p));
  rd_anchor : needs_anchor g = true →
    ∃ l, anchor_of (self m) p = Some l
         ∧ size (heap (world m) l) = size (heap (world m) (p_data p)) }.

(** With [save_noise] set, [self.noise] is a list ([step] makes it one). *)
Definition log_ok (m : Machine) : Prop :=
  save_noise (self m) = true → is_Some (noise (self m)).

(** The value of [dw] at index [i]. *)
Definition drift_at (g : Group) (v gr a : R) : R :=
  gr * temperature g + weight_decay g * v + localization g * (v - a).

(** The tensor [torch.normal] returns on line 113 from the machine [m]. *)
Definition drawn (g : Group) (grad : Tensor) (m : Machine) : Tensor :=
  normal_val (rng (world m)) 0 (noise_level g) (size grad) (t_device grad)
             (default_dtype (world m)).

(** [self.noise] after lines 116-117. *)
Definition logged (b : bool) (t : Tensor) (log : option (list Tensor))
    : option (list Tensor) :=
  if b then (λ l, l ++ [t]) <$> log else log.

(** What [rebound] does to one element [x] of a parameter whose saved
    initial value there is [a]. *)
Definition box (g : Group) (a x : R) : R :=
  match bounding_box_size g with
  | Some b => if nonzero b then clamp1 x (a - b) (a + b) else x
  | None => x
  end.

(** Every occurrence with a gradient is ready. *)
Definition Ready (occ : list (Group * Param)) (m : Machine) : Prop :=
  ∀ g p grad, (g, p) ∈ occ → p_grad p = Some grad → ready g p grad m.

(** The tensors [torch.normal] returns along a run, in order. *)
Fixpoint draws (gen : Generator) (dt : dtype) (occ : list (Group * Param)) : list Tensor :=
  match occ with
  | [] => []
  | (g, p) :: occ' =>
      match p_grad p with
      | Some grad =>
          normal_val gen 0 (noise_level g) (size grad) (t_device grad) dt
          :: draws (advance (size grad) gen) dt occ'
      | None => draws gen dt occ'
      end
  end.

(** No saved initial parameter is the data of a parameter. *)
Definition anchors_apart (occ : list (Group * Param)) (m : Machine) : Prop :=
  ∀ gp gq l, gp ∈ occ → gq ∈ occ → anchor_of (self m) gp.2 = Some l → l ≠ p_data gq.2.

(** The tensor objects of the parameters, in visiting order. *)
Definition data_locs (occ : list (Group * Param)) : list loc := (λ gp, p_data gp.2) <$> occ.

(** [step_ready m]: what [step] needs of the machine in order to return
    normally, for every parameter that carries a gradient: non-negative
    [lr] and [noise_level], a gradient of the size of the parameter, and
    a saved initial parameter of that size where the group uses one. *)
Definition step_ready (m : Machine) : Prop :=
  Ready (occurrences (param_groups (self m))) m.

(** The parameter object at [l] carries no gradient. *)
Definition no_grad (m : Machine) (l : loc) : Prop :=
  ∀ g p, g ∈ param_groups (self m) → p ∈ params g → p_data p = l → p_grad p = None.

(** The occurrences that [step] updates. *)
Definition with_grad (occ : list (Group * Param)) : list (Group * Param) :=
  filter (λ gp, is_Some (p_grad gp.2)) occ.

(** ** Concrete machines, used as test inputs *)

(** A one-element float32 tensor on the CPU. *)
Definition scalar (x : R) : Tensor := mkTensor [x] Cpu Float32.

(** A generator whose samples are all zero: the stand-in for
    [torch.normal] that switches the noise off. *)
Definition zero_gen : Generator := mkGenerator (λ _, 0) 0%nat.

(** A generator whose samples are all one. *)
Definition ones_gen : Generator := mkGenerator (λ _, 1) 0%nat.

(** Two parameters in one group with the default options except
    [lr = 0.04]: the first, at 0 with value 10, has gradient 2; the second,
    at 1 with value 3, has none.  Noise is saved. *)
Definition two_params : list Param :=
  [mkParam 0 (Some (scalar 2)); mkParam 1 None].

Definition two_group : Group := mkGroup two_params 0.04 1 0 0 1 None.

Definition two_machine : Machine :=
  mkMachine (mkSGLD [two_group] ∅ true None)
            (mkWorld (<[0%nat := scalar 10]> (λ _, scalar 3)) 2 ones_gen Float32 []).

(** ** Construction and the life of the optimizer *)

(** Every parameter handed to the constructor is an object of the store. *)
Definition allocated (ps : list GroupSpec) (w : World) : Prop :=
  ∀ s q, s ∈ ps → q ∈ gs_params s → (p_data q < next_loc w)%nat.

(** [grown w m]: the machine [m] extends the world [w] by tensor objects
    that are saved initial parameters, each a copy of what its parameter
    held in [w]; the objects of [w] are as they were. *)
Record grown (w : World) (m : Machine) : Prop := mkGrown {
  gr_next : (next_loc w ≤ next_loc (world m))%nat;
  gr_heap : ∀ l, (l < next_loc w)%nat → heap (world m) l = heap w l;
  gr_anchor : ∀ q l, anchor_of (self m) q = Some l →
    (p_data q < next_loc w ≤ l)%nat ∧ (l < next_loc (world m))%nat
    ∧ heap (world m) l = heap w (p_data q);
  gr_warnings : warnings (world m) = warnings w;
  gr_noise : noise (self m) = None }.

(** What the training loop may do between two calls of [step]: anything
    (set gradients, change coefficients, write parameter values, draw
    from the generator) except touch [self.state] or a tensor object that
    is not the data of a registered parameter, or register parameters. *)
Record driver (m m' : Machine) : Prop := mkDriver {
  dr_state : state (self m') = state (self m);
  dr_params : ∀ g' q, g' ∈ param_groups (self m') → q ∈ params g' →
    ∃ g p, g ∈ param_groups (self m) ∧ p ∈ params g ∧ p_data p = p_data q;
  dr_heap : ∀ l,
    (∀ g p, g ∈ param_groups (self m) → p ∈ params g → p_data p ≠ l) →
    heap (world m') l = heap (world m) l }.

(** The machines reached from [m] by calls of [step] (returning or
    raising) interleaved with the training loop. *)
Inductive reachable (m : Machine) : Machine → Prop :=
  | reach_here : reachable m m
  | reach_step m' : reachable m m' → reachable m (step m').2
  | reach_driver m' m'' : reachable m m' → driver m' m'' → reachable m m''.

(** The warnings a construction with the arguments [d] is to issue, in
    order. *)
Definition expected_warnings (d : Defaults) : list string :=
  (if decide (d_noise_level d ≠ 1) then [noise_level_warning] else [])
  ++ (if decide (d_temperature d = 1) then [temperature_warning] else []).

(** One parameter, at 0 with value 10 and gradient 2, handed to the
    constructor as a plain list, in a world that holds nothing else. *)
Definition lone_param : Param := mkParam 0 (Some (scalar 2)).

Definition lone_world : World :=
  mkWorld (λ _, scalar 10) 1 zero_gen Float32 [].

(** Arguments with [localization = 0.5], otherwise the signature's. *)
Definition localized : Defaults := mkDefaults 0.04 1 0 0.5 1 None.

(** Each parameter occurs once among the groups, and no saved initial
    parameter is the data of a parameter. *)
Definition separated (m : Machine) : Prop :=
  NoDup (data_locs (occurrences (param_groups (self m))))
  ∧ anchors_apart (occurrences (param_groups (self m))) m.

(** A machine with one group of one parameter: the parameter sits at 0
    with value [v] and gradient [grad], its saved initial parameter at 1
    with value [a]; all samples of the generator are zero. *)
Definition one_param (grad : option Tensor) : Param := mkParam 0 grad.

Definition one_machine (g : list Param → Group) (v a : R) (grad : option Tensor)
    : Machine :=
  mkMachine
    (mkSGLD [g [one_param grad]] {[ 0%nat := {[ "initial_param"%string := 1%nat ]} ]}
            false None)
    (mkWorld (<[0%nat := scalar v]> (λ _, scalar a)) 2 zero_gen Float32 []).

(** [lr = 0.04] and otherwise the default options. *)
Definition vanilla (ps : list Param) : Group := mkGroup ps 0.04 1 0 0 1 None.

(** [lr = 0.04], [localization = 0.5], no decay, no box. *)
Definition pulled (ps : list Param) : Group := mkGroup ps 0.04 1 0 0.5 1 None.

(** [lr = 0.04], no decay, no localization, a box of size [b]. *)
Definition boxed (b : R) (ps : list Param) : Group := mkGroup ps 0.04 1 0 0 1 (Some b).

(** One float64 parameter with a gradient, in a group with the default
    options, while the default dtype is float32; noise is saved. *)
Definition double_param : Param := mkParam 0 (Some (mkTensor [2] Cpu Float64)).

Definition double_group : Group := mkGroup [double_param] 0.04 1 0 0 1 None.

Definition double_machine : Machine :=
  mkMachine (mkSGLD [double_group] ∅ true None)
            (mkWorld (λ _, mkTensor [10] Cpu Float64) 1 ones_gen Float32 []).

(** ** Further vocabulary *)

(** [below n m m']: from [m] to [m'] the store has only grown: the
    tensor objects below [n] are as they were, and the generator and the
    default dtype are untouched. *)
Record below (n : loc) (m m' : Machine) : Prop := mkBelow {
  bl_next : (next_loc (world m) ≤ next_loc (world m'))%nat;
  bl_heap : ∀ l, (l < n)%nat → heap (world m') l = heap (world m) l;
  bl_rng : rng (world m') = rng (world m);
  bl_dtype : default_dtype (world m') = default_dtype (world m) }.

(** Two parameters, at 0 and 1, in a world that holds them and nothing
    else. *)
Definition left_param : Param := mkParam 0 (Some (scalar 2)).
Definition right_param : Param := mkParam 1 None.

Definition pair_world : World :=
  mkWorld (<[0%nat := scalar 10]> (λ _, scalar 3)) 2 zero_gen Float32 [].

(** Arguments with [bounding_box_size = 0], otherwise the signature's. *)
Definition zero_box : Defaults := mkDefaults 0.01 1 0 0 1 (Some 0).

(** [own n m]: every saved initial parameter of [m] is a tensor object
    allocated at or after [n], and no two parameters share one. *)
Definition own (n : loc) (m : Machine) : Prop :=
  (∀ p l, anchor_of (self m) p = Some l → (n ≤ l < next_loc (world m))%nat)
  ∧ (∀ p q l, anchor_of (self m) p = Some l → anchor_of (self m) q = Some l →
       p_data q = p_data p).

(** The gradients handed to the first [step] fit the parameters as the
    world [w] holds them, and the options of the groups are such that
    [step] can use them. *)
Definition fits (gs : list Group) (w : World) : Prop :=
  ∀ g p grad, g ∈ gs → p ∈ params g → p_grad p = Some grad →
    0 <= lr g ∧ 0 <= noise_level g ∧ size grad = size (heap w (p_data p)).

(** The number of samples a run over [occ] draws: one for each element of
    each gradient. *)
Definition drawn_count (occ : list (Group * Param)) : nat :=
  sum_list ((λ gp, from_option size 0%nat (p_grad gp.2)) <$> occ).

(** A machine whose optimizer has no saved state: one group of one
    parameter, at 0 with value [v] and gradient [grad]. *)
Definition bare_machine (g : list Param → Group) (v : R) (grad : option Tensor)
    : Machine :=
  mkMachine (mkSGLD [g [one_param grad]] ∅ false None)
            (mkWorld (λ _, scalar v) 1 zero_gen Float32 []).

(** [in_box m]: every element of every parameter of a group with a
    bounding box of positive size lies in the box around the saved
    initial parameter. *)
Definition in_box (m : Machine) : Prop :=
  ∀ g p b, g ∈ param_groups (self m) → p ∈ params g →
    bounding_box_size g = Some b → 0 < b →
    ∃ l, anchor_of (self m) p = Some l
      ∧ ∀ i x, elems (heap (world m) (p_data p)) !! i = Some x →
          ∃ a, elems (heap (world m) l) !! i = Some a ∧ a - b <= x <= a + b.

(** [n] calls of [step] in a row, the gradients staying as they are. *)
Fixpoint steps (n : nat) : M unit :=
  match n with
  | O => mret tt
  | S n' => step;; steps n'
  end.

(** The element of a parameter after the update and before the clamp:
    old element [v], gradient element [gr], saved initial element [a],
    standard normal sample [z]. *)
Definition unclamped (g : Group) (v gr a z : R) : R :=
  v - 0.5 * lr g * drift_at g v gr a + sqrt (lr g) * (0 + noise_level g * z).

(** The computation [c] leaves [self.state] as it is, whether it returns
    or raises. *)
Definition keeps_state {A} (c : M A) : Prop :=
  ∀ m, state (self (c m).2) = state (self m).

(** Arguments with [lr = 0.04] and [bounding_box_size = 1], otherwise the
    signature's. *)
Definition box_args : Defaults := mkDefaults 0.04 1 0 0 1 (Some 1).

(** The tensor that [torch.normal] returns on line 113 for the [k]-th
    parameter that [step] updates, of group [g] and with gradient [grad]:
    the call's arguments ([mean = 0.0], [std = noise_level], the size and
    device of [dw]; no dtype), on the generator as the draws for the [k]
    parameters updated before have left it. *)
Definition noise_for (m : Machine) (k : nat) (g : Group) (grad : Tensor) : Tensor :=
  normal_val
    (advance (drawn_count (take k (with_grad (occurrences (param_groups (self m))))))
             (rng (world m)))
    0 (noise_level g) (size grad) (t_device grad) (default_dtype (world m)).

(** * Reasoning about computations *)

Lemma bind_run {A B} (c : M A) (k : A → M B) (m : Machine) :
  (c ≫= k) m = match c m with
               | (Ok a, m') => k a m'
               | (Raise e, m') => (Raise e, m')
               end.
Proof. reflexivity. Qed.


Lemma for_each_app {A} (l1 l2 : list A) (body : A → M unit) (m : Machine) :
  for_each (l1 ++ l2) body m = (for_each l1 body;; for_each l2 body) m.
Proof.
  revert m. induction l1 as [|x l1 IH]; intros m; simpl.
  - reflexivity.
  - rewrite !bind_run. destruct (body x m) as [[[]|e] m1]; [|reflexivity].
    rewrite IH. reflexivity.
Qed.

Lemma for_each_groups (gs : list Group) (m : Machine) :
  for_each gs (λ g, for_each (params g) (update_param g)) m
  = for_each (occurrences gs) visit m.
Proof.
  revert m. induction gs as [|g gs IH]; intros m; [reflexivity|].
  unfold occurrences. simpl. fold (occurrences gs).
  rewrite for_each_app, !bind_run.
  assert (Hin : ∀ ps m0, for_each ps (update_param g) m0
                       = for_each ((λ p, (g, p)) <$> ps) visit m0).
  { induction ps as [|p ps IHp]; intros m0; [reflexivity|].
    simpl. rewrite !bind_run. unfold visit at 1. simpl.
    destruct (update_param g p m0) as [[[]|e] m1]; [apply IHp|reflexivity]. }
  rewrite Hin.
  destruct (for_each _ visit m) as [[[]|e] m1]; [apply IH|reflexivity].
Qed.

Lemma step_run (m : Machine) :
  step m = for_each (occurrences (param_groups (self m))) visit
             (set_self (set_noise (Some [])) m).
Proof. unfold step. rewrite !bind_run. simpl. apply for_each_groups. Qed.

(** ** What a computation leaves alone *)

Section frames.
Context (L : loc → Prop).

Lemma frame_refl m : frame L m m.
Proof. by constructor. Qed.

Lemma frame_trans m1 m2 m3 : frame L m1 m2 → frame L m2 m3 → frame L m1 m3.
Proof.
  intros H1 H2. constructor; intros.
  - rewrite (fr_groups _ _ _ H2). apply H1.
  - rewrite (fr_save _ _ _ H2). apply H1.
  - rewrite (fr_anchor _ _ _ H2). apply H1.
  - rewrite (fr_size _ _ _ H2). apply H1.
  - rewrite (fr_heap _ _ _ H2) by done. by apply H1.
  - by apply H2, H1.
  - rewrite (fr_log _ _ _ H2); [by apply H1|]. by rewrite (fr_save _ _ _ H1).
  - rewrite (fr_samples _ _ _ H2). apply H1.
  - rewrite (fr_dtype _ _ _ H2). apply H1.
Qed.

Lemma frame_mono (L' : loc → Prop) m m' :
  (∀ l, L l → L' l) → frame L m m' → frame L' m m'.
Proof. intros HL []. constructor; auto. Qed.

Lemma respects_ret {A} (a : A) : respects L (mret a).
Proof. intros m. apply frame_refl. Qed.

Lemma respects_raise {A} e : respects L (@raise A e).
Proof. intros m. apply frame_refl. Qed.

Lemma respects_bind {A B} (c : M A) (k : A → M B) :
  respects L c → (∀ a, respects L (k a)) → respects L (c ≫= k).
Proof.
  intros Hc Hk m. rewrite bind_run. specialize (Hc m).
  destruct (c m) as [[a|e] m1]; simpl in *; [|done].
  eapply frame_trans; [done|apply Hk].
Qed.

Lemma respects_mono {A} (L' : loc → Prop) (c : M A) :
  (∀ l, L l → L' l) → respects L c → respects L' c.
Proof. intros HL Hc m. eapply frame_mono; eauto. Qed.

Lemma respects_for_each {A} (l : list A) (body : A → M unit) :
  (∀ x, x ∈ l → respects L (body x)) → respects L (for_each l body).
Proof.
  induction l as [|x l IH]; intros H; simpl.
  - apply (respects_ret tt).
  - apply respects_bind; [apply H; left|].
    intros _. apply IH. intros y Hy. apply H. by right.
Qed.

(** *** Sizes of elementwise results *)

Lemma size_mul_scalar t c : size (mul_scalar t c) = size t.
Proof. unfold size. simpl. by rewrite length_fmap. Qed.

Lemma size_add_scalar t c : size (add_scalar t c) = size t.
Proof. unfold size. simpl. by rewrite length_fmap. Qed.

Lemma size_sub_scalar t c : size (sub_scalar t c) = size t.
Proof. unfold size. simpl. by rewrite length_fmap. Qed.

Lemma size_add_alpha_val t o a : size t = size o → size (add_alpha_val t o a) = size t.
Proof. unfold size. simpl. intros H. rewrite length_zip_with. lia. Qed.

Lemma size_sub_val t o : size t = size o → size (sub_val t o) = size t.
Proof. unfold size. simpl. intros H. rewrite length_zip_with. lia. Qed.

Lemma size_clamp_val t lo hi :
  size t = size lo → size t = size hi → size (clamp_val t lo hi) = size t.
Proof.
  unfold size. simpl. intros H1 H2.
  rewrite length_zip_with, length_zip. lia.
Qed.

Lemma size_normal_val g mean std n dev dt : size (normal_val g mean std n dev dt) = n.
Proof. unfold size. simpl. by rewrite length_fmap, length_seq. Qed.

(** *** The primitive operations *)

Lemma anchor_of_self_state o p q :
  anchor_of (set_state <[p_data p := state_of o p]> o) q = anchor_of o q.
Proof.
  unfold anchor_of, state_of. simpl.
  destruct (decide (p_data p = p_data q)) as [E|E].
  - rewrite E, lookup_insert_eq. reflexivity.
  - rewrite lookup_insert_ne by done. reflexivity.
Qed.

Lemma respects_load l : respects L (load l).
Proof. intros m. apply frame_refl. Qed.

Lemma respects_add_alpha t o a : respects L (add_alpha t o a).
Proof. intros m. unfold add_alpha. case_decide; apply frame_refl. Qed.

Lemma respects_sub t o : respects L (sub t o).
Proof. intros m. unfold sub. case_decide; apply frame_refl. Qed.

Lemma respects_pow_half x : respects L (pow_half x).
Proof. intros m. unfold pow_half. case_decide; apply frame_refl. Qed.

Lemma respects_initial_param p : respects L (initial_param p).
Proof. intros m. unfold initial_param. case_match; apply frame_refl. Qed.

Lemma respects_add_ l o a : L l → respects L (add_ l o a).
Proof.
  intros HL m. unfold add_. case_decide; [|apply frame_refl].
  constructor; simpl; try done; intros l'.
  - destruct (decide (l = l')) as [<-|]; [|by rewrite fn_lookup_insert_ne].
    rewrite fn_lookup_insert. by apply size_add_alpha_val.
  - intros Hl'. rewrite fn_lookup_insert_ne; [done|]. by intros <-.
Qed.

Lemma respects_clamp_ l lo hi : L l → respects L (clamp_ l lo hi).
Proof.
  intros HL m. unfold clamp_. case_decide as H; [|apply frame_refl].
  destruct H as [H1 H2].
  constructor; simpl; try done; intros l'.
  - destruct (decide (l = l')) as [<-|]; [|by rewrite fn_lookup_insert_ne].
    rewrite fn_lookup_insert. by apply size_clamp_val.
  - intros Hl'. rewrite fn_lookup_insert_ne; [done|]. by intros <-.
Qed.

Lemma respects_torch_normal mean std n dev : respects L (torch_normal mean std n dev).
Proof.
  intros m. unfold torch_normal. case_decide; [|apply frame_refl].
  by constructor.
Qed.

Lemma respects_record_noise t : respects L (record_noise t).
Proof.
  intros m. unfold record_noise.
  destruct (save_noise (self m)) eqn:E; [|apply frame_refl].
  destruct (noise (self m)); [|apply frame_refl].
  constructor; simpl; try done. by rewrite E.
Qed.

Lemma respects_self_state p : respects L (self_state p).
Proof.
  intros m. constructor; simpl; try done.
  intros q. apply anchor_of_self_state.
Qed.

End frames.

(** *** The update of one parameter, and a whole step *)

Ltac respects_tac :=
  repeat first
    [ apply respects_bind; [|intros ?]
    | apply respects_self_state | apply respects_load | apply respects_add_alpha
    | apply respects_sub | apply respects_pow_half | apply respects_initial_param
    | apply respects_torch_normal | apply respects_record_noise
    | by apply respects_add_ | by apply respects_clamp_
    | apply (@respects_ret _ Tensor) | apply (@respects_ret _ unit)
    | case_match ].

Lemma respects_drift L g p grad : respects L (drift g p grad).
Proof. unfold drift. respects_tac. Qed.

Lemma respects_langevin g p grad : respects (λ l, l = p_data p) (langevin g p grad).
Proof. unfold langevin. respects_tac. Qed.

Lemma respects_rebound g p : respects (λ l, l = p_data p) (rebound g p).
Proof. unfold rebound. respects_tac. Qed.

(** A parameter without a gradient is skipped; one with a gradient has
    its own tensor object updated and no other. *)
Lemma respects_update_param g p :
  respects (λ l, l = p_data p ∧ is_Some (p_grad p)) (update_param g p).
Proof.
  unfold update_param. destruct (p_grad p) as [grad|] eqn:E.
  - apply respects_mono with (L := λ l, l = p_data p); [by eauto|].
    apply respects_bind; [apply respects_langevin|intros _; apply respects_rebound].
  - apply (@respects_ret _ unit).
Qed.

Lemma respects_visits occ : respects (written occ) (for_each occ visit).
Proof.
  apply respects_for_each. intros gp Hgp.
  eapply respects_mono; [|apply respects_update_param].
  intros l [-> ?]. by exists gp.
Qed.

Lemma frame_step m :
  frame (written (occurrences (param_groups (self m))))
        (set_self (set_noise (Some [])) m) (step m).2.
Proof.
  rewrite step_run.
  apply (respects_visits _ (set_self (set_noise (Some [])) m)).
Qed.

(** ** What the update of one parameter computes *)

Lemma nonzero_false x : nonzero x = false → x = 0.
Proof. unfold nonzero. intros H. apply bool_decide_eq_false in H. by apply dec_stable. Qed.


Lemma drift_spec g p grad m :
  size grad = size (heap (world m) (p_data p)) →
  (nonzero (localization g) = true →
    ∃ l, anchor_of (self m) p = Some l
         ∧ size (heap (world m) l) = size (heap (world m) (p_data p))) →
  ∃ dw, drift g p grad m = (Ok dw, m)
    ∧ size dw = size grad ∧ t_device dw = t_device grad
    ∧ ∀ i v gr a,
        elems (heap (world m) (p_data p)) !! i = Some v →
        elems grad !! i = Some gr →
        (nonzero (localization g) = true →
           ∃ l, anchor_of (self m) p = Some l ∧ elems (heap (world m) l) !! i = Some a) →
        elems dw !! i = Some (drift_at g v gr a).
Proof.
  intros Hgrad Hanchor. unfold drift. rewrite bind_run.
  set (w := heap (world m) (p_data p)) in *.
  assert (Hdw1 : ∃ dw1,
    (if nonzero (weight_decay g)
     then load (p_data p) ≫= λ w, add_alpha (mul_scalar grad (temperature g)) w (weight_decay g)
     else mret (mul_scalar grad (temperature g))) m = (Ok dw1, m)
    ∧ size dw1 = size grad ∧ t_device dw1 = t_device grad
    ∧ ∀ i v gr, elems w !! i = Some v → elems grad !! i = Some gr →
        elems dw1 !! i = Some (gr * temperature g + weight_decay g * v)).
  { destruct (nonzero (weight_decay g)) eqn:Ewd.
    - rewrite bind_run. simpl. unfold add_alpha.
      rewrite decide_True by (by rewrite size_mul_scalar).
      eexists; split; [reflexivity|].
      split; [rewrite size_add_alpha_val; rewrite size_mul_scalar; done|].
      split; [done|]. intros i v gr Hv Hgr. simpl.
      rewrite lookup_zip_with, list_lookup_fmap, Hgr. simpl. fold w. rewrite Hv. done.
    - eexists; split; [reflexivity|]. split; [apply size_mul_scalar|]. split; [done|].
      intros i v gr Hv Hgr. simpl. rewrite list_lookup_fmap, Hgr. simpl.
      f_equal. rewrite (nonzero_false _ Ewd). lra. }
  destruct Hdw1 as (dw1 & -> & Hsz & Hdev & Hel).
  destruct (nonzero (localization g)) eqn:Eloc.
  - destruct Hanchor as (l & Hl & Hlsz); [done|].
    rewrite bind_run. unfold initial_param. fold (anchor_of (self m) p). rewrite Hl.
    rewrite bind_run. simpl. rewrite bind_run. unfold sub. fold w.
    rewrite decide_True by done. simpl. unfold add_alpha.
    rewrite decide_True by (rewrite size_sub_val by done; congruence).
    eexists; split; [reflexivity|].
    split; [rewrite size_add_alpha_val; rewrite ?size_sub_val; congruence|].
    split; [done|]. intros i v gr a Hv Hgr Ha.
    destruct Ha as (l' & Hl' & Ha); [done|]. assert (l' = l) as -> by congruence.
    simpl. rewrite !lookup_zip_with, (Hel i v gr), Hv, Ha by done. done.
  - eexists; split; [reflexivity|]. do 2 (split; [done|]).
    intros i v gr a Hv Hgr _. rewrite (Hel i v gr) by done. f_equal.
    unfold drift_at. rewrite (nonzero_false _ Eloc). lra.
Qed.

Lemma langevin_spec g p grad m :
  ready g p grad m → log_ok m →
  ∃ m1, langevin g p grad m = (Ok tt, m1)
    ∧ rng (world m1) = advance (size grad) (rng (world m))
    ∧ noise (self m1) = logged (save_noise (self m)) (drawn g grad m) (noise (self m))
    ∧ ∀ i v gr a n,
        elems (heap (world m) (p_data p)) !! i = Some v →
        elems grad !! i = Some gr →
        (nonzero (localization g) = true →
           ∃ l, anchor_of (self m) p = Some l ∧ elems (heap (world m) l) !! i = Some a) →
        elems (drawn g grad m) !! i = Some n →
        elems (heap (world m1) (p_data p)) !! i
        = Some (v - 0.5 * lr g * drift_at g v gr a + sqrt (lr g) * n).
Proof.
  intros [Hlr Hnl Hgrad Hanchor] Hlog.
  unfold langevin. rewrite bind_run. simpl.
  set (m0 := set_self _ m).
  destruct (drift_spec g p grad m0) as (dw & Hdw & Hsz & Hdev & Hel); [done| |].
  { intros Eloc. destruct Hanchor as (l & Hl & Hlsz).
    - unfold needs_anchor. by rewrite Eloc.
    - exists l. split; [|done]. subst m0. simpl. by rewrite anchor_of_self_state. }
  rewrite bind_run, Hdw, bind_run. unfold add_ at 1. simpl.
  rewrite decide_True by congruence.
  rewrite bind_run. unfold torch_normal. simpl.
  rewrite decide_True by done.
  rewrite bind_run. unfold record_noise. simpl.
  assert (Hpow : ∀ m', pow_half (lr g) m' = (Ok (sqrt (lr g)), m')).
  { intros m'. unfold pow_half. by rewrite decide_True. }
  assert (Hval : ∀ i v gr a n,
    elems (heap (world m) (p_data p)) !! i = Some v →
    elems grad !! i = Some gr →
    (nonzero (localization g) = true →
       ∃ l, anchor_of (self m) p = Some l ∧ elems (heap (world m) l) !! i = Some a) →
    elems (drawn g grad m) !! i = Some n →
    zip_with (λ x y, x + sqrt (lr g) * y)
      (zip_with (λ x y, x + -0.5 * lr g * y) (elems (heap (world m) (p_data p))) (elems dw))
      (elems (drawn g grad m)) !! i
    = Some (v - 0.5 * lr g * drift_at g v gr a + sqrt (lr g) * n)).
  { intros i v gr a n Hv Hgr Ha Hn.
    rewrite !lookup_zip_with, Hv, (Hel i v gr a), Hn; try done.
    - simpl. f_equal. lra.
    - intros Eloc. destruct (Ha Eloc) as (l & Hl & Hla). exists l. split; [|done].
      subst m0. simpl. by rewrite anchor_of_self_state. }
  assert (Hsz2 : size (add_alpha_val (heap (world m) (p_data p)) dw (-0.5 * lr g))
                 = size (drawn g grad m)).
  { rewrite size_add_alpha_val by congruence. unfold drawn. by rewrite size_normal_val. }
  unfold drawn in *. rewrite Hsz, Hdev.
  destruct (save_noise (self m)) eqn:Esave.
  - destruct Hlog as [log Hlog]; [done|]. rewrite Hlog.
    rewrite bind_run, Hpow. unfold add_. simpl. rewrite fn_lookup_insert.
    rewrite decide_True by done.
    eexists; split; [reflexivity|]. simpl. split; [done|]. split; [done|].
    intros i v gr a n Hv Hgr Ha Hn. rewrite fn_lookup_insert. simpl. eauto.
  - rewrite bind_run, Hpow. unfold add_. simpl. rewrite fn_lookup_insert.
    rewrite decide_True by done.
    eexists; split; [reflexivity|]. simpl. split; [done|]. split; [done|].
    intros i v gr a n Hv Hgr Ha Hn. rewrite fn_lookup_insert. simpl. eauto.
Qed.

Lemma rebound_spec g p m :
  (truthy (bounding_box_size g) = true →
    ∃ l, anchor_of (self m) p = Some l
         ∧ size (heap (world m) l) = size (heap (world m) (p_data p))) →
  ∃ m1, rebound g p m = (Ok tt, m1)
    ∧ self m1 = self m ∧ rng (world m1) = rng (world m)
    ∧ ∀ i x a,
        elems (heap (world m) (p_data p)) !! i = Some x →
        (truthy (bounding_box_size g) = true →
           ∃ l, anchor_of (self m) p = Some l ∧ elems (heap (world m) l) !! i = Some a) →
        elems (heap (world m1) (p_data p)) !! i = Some (box g a x).
Proof.
  intros Hanchor. unfold rebound, box.
  destruct (bounding_box_size g) as [b|]; simpl in *.
  - destruct (nonzero b) eqn:Eb.
    + destruct Hanchor as (l & Hl & Hsz); [done|].
      rewrite bind_run. unfold initial_param at 1. fold (anchor_of (self m) p). rewrite Hl.
      rewrite bind_run. unfold initial_param at 1. fold (anchor_of (self m) p). rewrite Hl.
      unfold clamp_. rewrite decide_True by (by rewrite size_sub_scalar, size_add_scalar).
      eexists; split; [reflexivity|]. simpl. do 2 (split; [done|]).
      intros i x a Hx Ha. destruct Ha as (l' & Hl' & Ha); [done|].
      assert (l' = l) as -> by congruence.
      rewrite fn_lookup_insert. simpl.
      rewrite lookup_zip_with, Hx. simpl.
      rewrite lookup_zip_with, !list_lookup_fmap, Ha. done.
    + eexists; split; [reflexivity|]. do 2 (split; [done|]). by intros i x a Hx _.
  - eexists; split; [reflexivity|]. do 2 (split; [done|]). by intros i x a Hx _.
Qed.

Lemma ready_frame L g p grad m m' : frame L m m' → ready g p grad m → ready g p grad m'.
Proof.
  intros F [Hlr Hnl Hgrad Hanchor]. constructor; try done.
  - by rewrite (fr_size _ _ _ F).
  - intros Hn. destruct (Hanchor Hn) as (l & Hl & Hsz). exists l.
    by rewrite (fr_anchor _ _ _ F), !(fr_size _ _ _ F).
Qed.

Lemma log_ok_frame L m m' : frame L m m' → log_ok m → log_ok m'.
Proof.
  intros F H Hs. rewrite (fr_save _ _ _ F) in Hs. by apply (fr_noise _ _ _ F), H.
Qed.

Lemma truthy_needs_anchor g : truthy (bounding_box_size g) = true → needs_anchor g = true.
Proof. unfold needs_anchor. intros ->. apply orb_true_r. Qed.

Lemma nonzero_needs_anchor g : nonzero (localization g) = true → needs_anchor g = true.
Proof. unfold needs_anchor. by intros ->. Qed.

Lemma update_param_spec g p grad m :
  p_grad p = Some grad → ready g p grad m → log_ok m →
  ∃ m2, update_param g p m = (Ok tt, m2)
    ∧ rng (world m2) = advance (size grad) (rng (world m))
    ∧ noise (self m2) = logged (save_noise (self m)) (drawn g grad m) (noise (self m))
    ∧ ∀ i v gr a n,
        elems (heap (world m) (p_data p)) !! i = Some v →
        elems grad !! i = Some gr →
        (needs_anchor g = true →
           ∃ l, anchor_of (self m) p = Some l ∧ l ≠ p_data p
                ∧ elems (heap (world m) l) !! i = Some a) →
        elems (drawn g grad m) !! i = Some n →
        elems (heap (world m2) (p_data p)) !! i
        = Some (box g a (v - 0.5 * lr g * drift_at g v gr a + sqrt (lr g) * n)).
Proof.
  intros Hgrad Hready Hlog. unfold update_param. rewrite Hgrad, bind_run.
  destruct (langevin_spec g p grad m Hready Hlog) as (m1 & E1 & Hrng & Hnoise & Hval).
  pose proof (respects_langevin g p grad m) as F. rewrite E1 in F. simpl in F.
  rewrite E1.
  destruct (rebound_spec g p m1) as (m2 & E2 & Hself & Hrng2 & Hval2).
  { intros Hb. destruct (rd_anchor _ _ _ _ Hready (truthy_needs_anchor _ Hb)) as (l & Hl & Hsz).
    exists l. by rewrite (fr_anchor _ _ _ F), !(fr_size _ _ _ F). }
  exists m2. split; [done|]. split; [congruence|]. split; [congruence|].
  intros i v gr a n Hv Hgr Ha Hn. apply Hval2.
  - apply (Hval i v gr a n); try done.
    intros Hloc. destruct (Ha (nonzero_needs_anchor _ Hloc)) as (l & Hl & _ & Hla). eauto.
  - intros Hb. destruct (Ha (truthy_needs_anchor _ Hb)) as (l & Hl & Hne & Hla).
    exists l. rewrite (fr_anchor _ _ _ F), (fr_heap _ _ _ F); done.
Qed.

(** ** Whole runs *)

Lemma Ready_frame L occ m m' : frame L m m' → Ready occ m → Ready occ m'.
Proof. intros F H g p grad Hin Hg. eapply ready_frame; eauto. Qed.

Lemma Ready_tail gp occ m : Ready (gp :: occ) m → Ready occ m.
Proof. intros H g p grad Hin. apply H. by right. Qed.

Lemma visit_spec gp m :
  Ready [gp] m → log_ok m →
  ∃ m1, visit gp m = (Ok tt, m1)
        ∧ frame (λ l, l = p_data gp.2 ∧ is_Some (p_grad gp.2)) m m1.
Proof.
  intros Hr Hlog. destruct gp as [g p]. unfold visit. simpl.
  pose proof (respects_update_param g p m) as F.
  destruct (p_grad p) as [grad|] eqn:Eg.
  - destruct (update_param_spec g p grad m) as (m1 & E & _); try done.
    { apply Hr; [left|done]. }
    rewrite E in F. eauto.
  - unfold update_param in *. rewrite Eg in *. eauto.
Qed.

(** A ready run returns. *)
Lemma run_ok occ m :
  Ready occ m → log_ok m → ∃ m', for_each occ visit m = (Ok tt, m').
Proof.
  revert m. induction occ as [|gp occ IH]; intros m Hr Hlog; simpl.
  - by eexists.
  - destruct (visit_spec gp m) as (m1 & E & F); [|done|].
    { intros g p grad Hin. apply Hr. apply list_elem_of_singleton in Hin as ->. left. }
    rewrite bind_run, E. apply IH.
    + eapply Ready_frame; [done|]. by eapply Ready_tail.
    + by eapply log_ok_frame.
Qed.

Lemma run_log occ m log :
  Ready occ m → noise (self m) = Some log →
  ∃ m', for_each occ visit m = (Ok tt, m')
    ∧ noise (self m')
      = Some (log ++ if save_noise (self m)
                     then draws (rng (world m)) (default_dtype (world m)) occ
                     else []).
Proof.
  revert m log. induction occ as [|[g p] occ IH]; intros m log Hr Hlog; simpl.
  - eexists; split; [done|]. rewrite Hlog. by destruct (save_noise _); rewrite app_nil_r.
  - rewrite bind_run. unfold visit at 1. simpl.
    assert (Hl : log_ok m) by (intros _; by rewrite Hlog).
    pose proof (respects_update_param g p m) as F.
    destruct (p_grad p) as [grad|] eqn:Eg.
    + destruct (update_param_spec g p grad m) as (m1 & E & Hrng & Hnoise & _); try done.
      { apply Hr; [left|done]. }
      rewrite E in *. simpl in F.
      destruct (IH m1 (log ++ if save_noise (self m) then [drawn g grad m] else []))
        as (m' & E' & Hn').
      * eapply Ready_frame; [done|]. by eapply Ready_tail.
      * rewrite Hnoise, Hlog. unfold logged. destruct (save_noise _); simpl; [done|].
        by rewrite app_nil_r.
      * exists m'. split; [done|]. rewrite Hn', (fr_save _ _ _ F), (fr_dtype _ _ _ F), Hrng.
        destruct (save_noise (self m)); [|by rewrite !app_nil_r].
        by rewrite <- app_assoc.
    + unfold update_param in *. rewrite Eg in *. simpl in *.
      apply IH; [by eapply Ready_tail|done].
Qed.

Lemma written_data_locs occ l : written occ l → l ∈ data_locs occ.
Proof.
  intros (gp & Hin & -> & _). unfold data_locs.
  apply list_elem_of_fmap. by exists gp.
Qed.

Lemma run_value occ m g p grad :
  Ready occ m → log_ok m → NoDup (data_locs occ) → anchors_apart occ m →
  (g, p) ∈ occ → p_grad p = Some grad →
  ∃ m' c, for_each occ visit m = (Ok tt, m')
    ∧ ∀ i v gr a n,
        elems (heap (world m) (p_data p)) !! i = Some v →
        elems grad !! i = Some gr →
        (needs_anchor g = true →
           ∃ l, anchor_of (self m) p = Some l ∧ elems (heap (world m) l) !! i = Some a) →
        elems (normal_val (mkGenerator (samples (rng (world m))) c) 0 (noise_level g)
                 (size grad) (t_device grad) (default_dtype (world m))) !! i = Some n →
        elems (heap (world m') (p_data p)) !! i
        = Some (box g a (v - 0.5 * lr g * drift_at g v gr a + sqrt (lr g) * n)).
Proof.
  revert m. induction occ as [|gp0 occ IH]; intros m Hr Hlog Hnd Hap Hin Hgrad.
  { by apply elem_of_nil in Hin. }
  simpl in Hnd. pose proof (NoDup_cons_1_1 _ _ Hnd) as Hhead.
  apply NoDup_cons_1_2 in Hnd.
  destruct (visit_spec gp0 m) as (m1 & E1 & F1); [|done|].
  { intros g' p' grad' Hin'. apply Hr. apply list_elem_of_singleton in Hin' as ->. left. }
  assert (Hr1 : Ready occ m1) by (eapply Ready_frame; [done|]; by eapply Ready_tail).
  assert (Hlog1 : log_ok m1) by (by eapply log_ok_frame).
  simpl. rewrite bind_run, E1.
  apply elem_of_cons in Hin as [<-|Hin].
  - (* the parameter is visited now; the rest of the run leaves it alone *)
    unfold visit in E1. simpl in E1.
    destruct (update_param_spec g p grad m) as (m1' & E & _ & _ & Hval); try done.
    { apply Hr; [left|done]. }
    assert (m1' = m1) as -> by congruence.
    destruct (run_ok occ m1 Hr1 Hlog1) as (m' & E').
    pose proof (respects_visits occ m1) as F. rewrite E' in F. simpl in F.
    exists m', (cursor (rng (world m))). split; [done|].
    intros i v gr a n Hv Hgr Ha Hn.
    rewrite (fr_heap _ _ _ F).
    + apply Hval; try done.
      intros Hneed. destruct (Ha Hneed) as (l & Hl & Hla). exists l.
      split; [done|]. split; [|done].
      apply (Hap (g, p) (g, p)); [left|left|done].
    + intros Hw. apply Hhead. by apply written_data_locs.
  - (* the parameter is visited later; this visit leaves it and its anchor alone *)
    destruct (IH m1) as (m' & c & E' & Hval); try done.
    { intros gp gq l Hgp Hgq. rewrite (fr_anchor _ _ _ F1).
      apply Hap; by right. }
    exists m', c. split; [done|].
    assert (Hne : p_data p ≠ p_data gp0.2).
    { intros Heq. apply Hhead. rewrite <- Heq.
      apply list_elem_of_fmap. by exists (g, p). }
    intros i v gr a n Hv Hgr Ha Hn. apply Hval; try done.
    + rewrite (fr_heap _ _ _ F1); [done|]. by intros [? _].
    + intros Hneed. destruct (Ha Hneed) as (l & Hl & Hla). exists l.
      rewrite (fr_anchor _ _ _ F1). split; [done|].
      rewrite (fr_heap _ _ _ F1); [done|]. intros [Heq _]. revert Heq.
      apply (Hap (g, p) gp0); [by right|left|done].
    + by rewrite (fr_samples _ _ _ F1), (fr_dtype _ _ _ F1).
Qed.

(** ** [step] as a run over the occurrences *)

Lemma elem_of_occurrences gs g p :
  (g, p) ∈ occurrences gs ↔ g ∈ gs ∧ p ∈ params g.
Proof.
  unfold occurrences. rewrite list_elem_of_bind. split.
  - intros (g' & Hp & Hg). apply list_elem_of_fmap in Hp as (p' & [= -> ->] & Hp). done.
  - intros [Hg Hp]. exists g. split; [|done]. apply list_elem_of_fmap. by exists p.
Qed.

Lemma Ready_reset occ m : Ready occ m → Ready occ (set_self (set_noise (Some [])) m).
Proof. intros H g p grad Hin Hg. destruct (H g p grad Hin Hg). by constructor. Qed.

Lemma log_ok_reset m : log_ok (set_self (set_noise (Some [])) m).
Proof. intros _. by eexists. Qed.

(** ** Construction *)

Lemma anchor_of_save_initial m p q :
  anchor_of (self (save_initial m p)) q
  = if decide (p_data p = p_data q) then Some (next_loc (world m))
    else anchor_of (self m) q.
Proof.
  unfold anchor_of, state_of, save_initial. simpl. case_decide as E.
  - rewrite E, lookup_insert_eq. simpl. apply lookup_insert_eq.
  - by rewrite lookup_insert_ne.
Qed.

Lemma anchor_of_save_initial_same m p :
  anchor_of (self (save_initial m p)) p = Some (next_loc (world m)).
Proof. by rewrite anchor_of_save_initial, decide_True. Qed.

Lemma grown_start o w : state o = ∅ → noise o = None → grown w (mkMachine o w).
Proof.
  intros Hst Hn. constructor; simpl; try done.
  intros q l. unfold anchor_of, state_of. rewrite Hst, lookup_empty. simpl.
  by rewrite lookup_empty.
Qed.

Lemma grown_save_initial w m p :
  grown w m → (p_data p < next_loc w)%nat → grown w (save_initial m p).
Proof.
  intros G Hp. pose proof (gr_next _ _ G) as Hn. constructor.
  - simpl. lia.
  - intros l Hl. simpl. rewrite fn_lookup_insert_ne by lia. by apply G.
  - intros q l. rewrite anchor_of_save_initial. case_decide as E.
    + intros [= <-]. simpl. rewrite fn_lookup_insert, <- E.
      split; [lia|]. split; [lia|]. by apply G.
    + intros Hq. destruct (gr_anchor _ _ G q l Hq) as (H1 & H2 & H3).
      simpl. rewrite fn_lookup_insert_ne by lia. split; [done|]. split; [lia|done].
  - simpl. apply G.
  - simpl. apply G.
Qed.


Lemma foldl_save_initial w m ps :
  grown w m → (∀ p, p ∈ ps → (p_data p < next_loc w)%nat) →
  let m' := foldl save_initial m ps in
  grown w m'
  ∧ param_groups (self m') = param_groups (self m)
  ∧ save_noise (self m') = save_noise (self m)
  ∧ (∀ q, is_Some (anchor_of (self m) q) → is_Some (anchor_of (self m') q))
  ∧ (∀ p, p ∈ ps → is_Some (anchor_of (self m') p)).
Proof.
  revert m. induction ps as [|p ps IH]; intros m G Hps; simpl.
  - split_and!; try done. intros p Hp. by apply elem_of_nil in Hp.
  - destruct (IH (save_initial m p)) as (G' & Hg & Hs & Hkeep & Hnew).
    { apply grown_save_initial; [done|]. apply Hps. left. }
    { intros q Hq. apply Hps. by right. }
    assert (Hhere : ∀ q, is_Some (anchor_of (self m) q) ∨ p_data p = p_data q →
                         is_Some (anchor_of (self (save_initial m p)) q)).
    { intros q Hq. rewrite anchor_of_save_initial. case_decide; [by eexists|].
      by destruct Hq. }
    split_and!; try done.
    + intros q Hq. apply Hkeep, Hhere. by left.
    + intros q Hq. apply elem_of_cons in Hq as [->|Hq]; [|by apply Hnew].
      apply Hkeep, Hhere. by right.
Qed.

Lemma foldl_save_initial_group w m gs :
  grown w m →
  (∀ g p, g ∈ gs → p ∈ params g → (p_data p < next_loc w)%nat) →
  let m' := foldl save_initial_group m gs in
  grown w m'
  ∧ param_groups (self m') = param_groups (self m)
  ∧ save_noise (self m') = save_noise (self m)
  ∧ (∀ q, is_Some (anchor_of (self m) q) → is_Some (anchor_of (self m') q))
  ∧ (∀ g p, g ∈ gs → p ∈ params g →
       nonzero (localization g) || ne_zero (bounding_box_size g) = true →
       is_Some (anchor_of (self m') p)).
Proof.
  revert m. induction gs as [|g gs IH]; intros m G Hgs; simpl.
  - split_and!; try done. intros g p Hg. by apply elem_of_nil in Hg.
  - assert (H1 : let m1 := save_initial_group m g in
      grown w m1 ∧ param_groups (self m1) = param_groups (self m)
      ∧ save_noise (self m1) = save_noise (self m)
      ∧ (∀ q, is_Some (anchor_of (self m) q) → is_Some (anchor_of (self m1) q))
      ∧ (∀ p, p ∈ params g →
           nonzero (localization g) || ne_zero (bounding_box_size g) = true →
           is_Some (anchor_of (self m1) p))).
    { unfold save_initial_group.
      destruct (nonzero (localization g) || ne_zero (bounding_box_size g)).
      - destruct (foldl_save_initial w m (params g) G) as (G1 & Hg1 & Hs1 & Hk1 & Hn1).
        { intros p Hp. apply (Hgs g p); [left|done]. }
        split_and!; try done. intros p Hp _. by apply Hn1.
      - split_and!; try done. }
    destruct H1 as (G1 & Hg1 & Hs1 & Hk1 & Hn1).
    destruct (IH (save_initial_group m g) G1) as (G' & Hg' & Hs' & Hk' & Hn').
    { intros g' p Hg' Hp. apply (Hgs g' p); [by right|done]. }
    split_and!; try done; try congruence.
    + intros q Hq. by apply Hk', Hk1.
    + intros g' p Hg Hp He. apply elem_of_cons in Hg as [->|Hg].
      * by apply Hk', Hn1.
      * by apply (Hn' g' p).
Qed.


Lemma check_arguments_store d w :
  next_loc (check_arguments d w) = next_loc w ∧ heap (check_arguments d w) = heap w.
Proof. unfold check_arguments. by repeat case_decide. Qed.

(** What [init] builds: the groups with their options, and a saved copy
    for every parameter of a group with
    [localization != 0 or bounding_box_size != 0]. *)
Lemma init_spec ps d save w :
  allocated ps w →
  let m0 := init ps d save w in
  param_groups (self m0) = add_param_group d <$> ps
  ∧ save_noise (self m0) = save
  ∧ grown (check_arguments d w) m0
  ∧ (∀ g p, g ∈ param_groups (self m0) → p ∈ params g →
       nonzero (localization g) || ne_zero (bounding_box_size g) = true →
       is_Some (anchor_of (self m0) p)).
Proof.
  intros Hall. unfold init. simpl.
  destruct (check_arguments_store d w) as [Hnext Hheap].
  set (w2 := check_arguments d w) in *.
  set (o := mkSGLD (add_param_group d <$> ps) ∅ save None).
  assert (G : grown w2 (mkMachine o w2)) by (by apply grown_start).
  destruct (foldl_save_initial_group w2 (mkMachine o w2) (add_param_group d <$> ps) G)
    as (G' & Hg & Hs & _ & Hn).
  { intros g p Hg Hp. apply list_elem_of_fmap in Hg as (s & -> & Hs).
    rewrite Hnext. by apply (Hall s p). }
  split_and!; try done.
  intros g p Hin. apply Hn. by rewrite Hg in Hin.
Qed.

(** ** Saved initial parameters along the life of the optimizer *)

(** Whatever lies at or above [n0] in the store, when all parameters lie
    below it, is out of reach of [step] and of the training loop. *)
Lemma reachable_keeps (n0 : loc) m0 m' :
  reachable m0 m' →
  (∀ g p, g ∈ param_groups (self m0) → p ∈ params g → (p_data p < n0)%nat) →
  (∀ g p, g ∈ param_groups (self m') → p ∈ params g → (p_data p < n0)%nat)
  ∧ (∀ q, anchor_of (self m') q = anchor_of (self m0) q)
  ∧ (∀ l, (n0 ≤ l)%nat → heap (world m') l = heap (world m0) l).
Proof.
  intros Hreach H0. induction Hreach as [|m' _ IH|m' m'' _ IH D].
  - done.
  - destruct IH as (Hp & Ha & Hh). pose proof (frame_step m') as F.
    split_and!.
    + intros g p. rewrite (fr_groups _ _ _ F). apply Hp.
    + intros q. rewrite (fr_anchor _ _ _ F). apply Ha.
    + intros l Hl. rewrite (fr_heap _ _ _ F); [by apply Hh|].
      intros ([g q] & Hin & -> & _). simpl in *.
      apply elem_of_occurrences in Hin as [Hg Hq].
      specialize (Hp g q Hg Hq). lia.
  - destruct IH as (Hp & Ha & Hh). split_and!.
    + intros g' q Hg' Hq. destruct (dr_params _ _ D g' q Hg' Hq) as (g & p & Hg & Hpp & E).
      rewrite <- E. by apply (Hp g p).
    + intros q. rewrite <- Ha. unfold anchor_of, state_of.
      by rewrite (dr_state _ _ D).
    + intros l Hl. rewrite (dr_heap _ _ D); [by apply Hh|].
      intros g p Hg Hpp E. specialize (Hp g p Hg Hpp). lia.
Qed.

(** The fields of the optimizer that saving initial parameters leaves
    alone. *)
Lemma save_initial_group_fields gs m :
  let m' := foldl save_initial_group m gs in
  param_groups (self m') = param_groups (self m)
  ∧ save_noise (self m') = save_noise (self m)
  ∧ noise (self m') = noise (self m)
  ∧ warnings (world m') = warnings (world m).
Proof.
  revert m. induction gs as [|g gs IH]; intros m; [done|]. simpl.
  assert (H : ∀ l m1, let m2 := foldl save_initial m1 l in
    param_groups (self m2) = param_groups (self m1)
    ∧ save_noise (self m2) = save_noise (self m1)
    ∧ noise (self m2) = noise (self m1)
    ∧ warnings (world m2) = warnings (world m1)).
  { induction l as [|p l IHl]; intros m1; [done|]. simpl. apply (IHl (save_initial m1 p)). }
  destruct (IH (save_initial_group m g)) as (-> & -> & -> & ->).
  unfold save_initial_group. case_match; [apply H|done].
Qed.

Lemma init_fields ps d save w :
  let m0 := init ps d save w in
  param_groups (self m0) = add_param_group d <$> ps
  ∧ save_noise (self m0) = save
  ∧ noise (self m0) = None
  ∧ warnings (world m0) = warnings (check_arguments d w).
Proof. unfold init. simpl. apply save_initial_group_fields. Qed.

Lemma check_arguments_warnings d w :
  warnings (check_arguments d w) = warnings w ++ expected_warnings d.
Proof.
  unfold check_arguments, expected_warnings.
  repeat case_decide; simpl; rewrite ?app_nil_r; try done.
  by rewrite <- app_assoc.
Qed.

(** ** One step, parameter by parameter *)

Lemma normal_val_lookup g mean std n dev dt i :
  (i < n)%nat →
  elems (normal_val g mean std n dev dt) !! i
  = Some (mean + std * samples g (cursor g + i)%nat).
Proof.
  intros Hi. simpl. rewrite list_lookup_fmap, lookup_seq_lt by done. done.
Qed.

Lemma step_value m g p grad :
  step_ready m → separated m →
  g ∈ param_groups (self m) → p ∈ params g → p_grad p = Some grad →
  ∃ m' c, step m = (Ok tt, m')
    ∧ ∀ i v gr a n,
        elems (heap (world m) (p_data p)) !! i = Some v →
        elems grad !! i = Some gr →
        (needs_anchor g = true →
           ∃ l, anchor_of (self m) p = Some l ∧ elems (heap (world m) l) !! i = Some a) →
        elems (normal_val (mkGenerator (samples (rng (world m))) c) 0 (noise_level g)
                 (size grad) (t_device grad) (default_dtype (world m))) !! i = Some n →
        elems (heap (world m') (p_data p)) !! i
        = Some (box g a (v - 0.5 * lr g * drift_at g v gr a + sqrt (lr g) * n)).
Proof.
  intros Hr [Hnd Hap] Hg Hp Hgrad. rewrite step_run.
  apply (run_value _ (set_self (set_noise (Some [])) m) g p grad); try done.
  - by apply Ready_reset.
  - apply log_ok_reset.
  - by apply elem_of_occurrences.
Qed.

(** The element of a box of positive size lies in it. *)
Lemma clamp1_bounds x lo hi : lo <= hi → lo <= clamp1 x lo hi <= hi.
Proof.
  intros H. unfold clamp1, Rmin, Rmax.
  repeat destruct (Rle_dec _ _); lra.
Qed.

(** ** The concrete machines are well formed *)

Lemma one_machine_occurrences g v a grad :
  params (g [one_param grad]) = [one_param grad] →
  occurrences (param_groups (self (one_machine g v a grad)))
  = [(g [one_param grad], one_param grad)].
Proof. intros H. unfold occurrences. simpl. by rewrite H. Qed.

Lemma one_machine_anchor g v a grad :
  anchor_of (self (one_machine g v a grad)) (one_param grad) = Some 1%nat.
Proof. reflexivity. Qed.

Lemma one_machine_ready g v a x :
  let G := g [one_param (Some (scalar x))] in
  params G = [one_param (Some (scalar x))] →
  0 <= lr G → 0 <= noise_level G →
  step_ready (one_machine g v a (Some (scalar x))).
Proof.
  intros G HG Hlr Hnl g' p grad Hin Hgrad.
  rewrite one_machine_occurrences in Hin by done.
  apply list_elem_of_singleton in Hin as [= -> ->].
  injection Hgrad as <-. constructor; try done.
  intros _. exists 1%nat. by rewrite one_machine_anchor.
Qed.

Lemma one_machine_separated g v a grad :
  params (g [one_param grad]) = [one_param grad] →
  separated (one_machine g v a grad).
Proof.
  intros HG. unfold separated. rewrite one_machine_occurrences by done. split.
  - apply NoDup_singleton.
  - intros gp gq l Hp Hq.
    apply list_elem_of_singleton in Hp as ->, Hq as ->.
    rewrite one_machine_anchor. by intros [= <-].
Qed.

Lemma one_machine_group g v a grad :
  g [one_param grad] ∈ param_groups (self (one_machine g v a grad)).
Proof. left. Qed.

Lemma two_machine_occurrences :
  occurrences (param_groups (self two_machine))
  = [(two_group, mkParam 0 (Some (scalar 2))); (two_group, mkParam 1 None)].
Proof. reflexivity. Qed.

Lemma two_machine_ready : step_ready two_machine.
Proof.
  intros g p grad Hin Hgrad. rewrite two_machine_occurrences in Hin.
  apply elem_of_cons in Hin as [[= -> ->]|Hin].
  - injection Hgrad as <-. constructor; simpl; try lra; try done.
    unfold needs_anchor, nonzero. simpl.
    rewrite bool_decide_eq_false_2 by (intros H; by apply H). done.
  - apply list_elem_of_singleton in Hin as [= -> ->]. discriminate Hgrad.
Qed.

Lemma sqrt_0_04 : sqrt 0.04 = 0.2.
Proof. replace 0.04 with (0.2 * 0.2) by lra. apply sqrt_square. lra. Qed.

Lemma step_ok m : step_ready m → ∃ m', step m = (Ok tt, m').
Proof.
  intros Hr. rewrite step_run. apply run_ok; [by apply Ready_reset|apply log_ok_reset].
Qed.

Lemma step_log m :
  step_ready m →
  ∃ m', step m = (Ok tt, m')
    ∧ noise (self m')
      = Some (if save_noise (self m)
              then draws (rng (world m)) (default_dtype (world m))
                         (occurrences (param_groups (self m)))
              else []).
Proof.
  intros Hr. rewrite step_run.
  destruct (run_log (occurrences (param_groups (self m)))
              (set_self (set_noise (Some [])) m) []) as (m' & E & Hn);
    [by apply Ready_reset|done|].
  exists m'. split; [done|]. by rewrite Hn.
Qed.

Lemma one_machine_ready_no_grad g v a :
  params (g [one_param None]) = [one_param None] →
  step_ready (one_machine g v a None).
Proof.
  intros HG g' p grad Hin Hgrad.
  rewrite one_machine_occurrences in Hin by done.
  apply list_elem_of_singleton in Hin as [= -> ->]. discriminate Hgrad.
Qed.

Lemma double_machine_ready : step_ready double_machine.
Proof.
  intros g p grad Hin Hgrad.
  apply list_elem_of_singleton in Hin as [= -> ->].
  injection Hgrad as <-. constructor; simpl; try lra; try done.
  unfold needs_anchor, nonzero. simpl.
  rewrite bool_decide_eq_false_2 by (intros H; by apply H). done.
Qed.

(** ** Construction only allocates *)

Lemma below_refl n m : below n m m.
Proof. by constructor. Qed.

Lemma below_trans n m1 m2 m3 :
  (n ≤ next_loc (world m1))%nat → below n m1 m2 → below n m2 m3 → below n m1 m3.
Proof.
  intros Hn [H1 H2 H3 H4] [K1 K2 K3 K4]. constructor.
  - lia.
  - intros l Hl. rewrite K2, H2; done.
  - congruence.
  - congruence.
Qed.

Lemma below_save_initial m p : below (next_loc (world m)) m (save_initial m p).
Proof.
  constructor; simpl; try done; [lia|].
  intros l Hl. apply fn_lookup_insert_ne. lia.
Qed.

Lemma below_mono n n' m m' : (n' ≤ n)%nat → below n m m' → below n' m m'.
Proof. intros Hn [H1 H2 H3 H4]. constructor; try done. intros l Hl. apply H2. lia. Qed.

Lemma below_foldl_save_initial ps m :
  below (next_loc (world m)) m (foldl save_initial m ps).
Proof.
  revert m. induction ps as [|p ps IH]; intros m; simpl; [apply below_refl|].
  eapply below_trans; [done|apply below_save_initial|].
  eapply below_mono; [|apply IH]. simpl. lia.
Qed.

Lemma below_foldl_save_initial_group gs m :
  below (next_loc (world m)) m (foldl save_initial_group m gs).
Proof.
  revert m. induction gs as [|g gs IH]; intros m; simpl; [apply below_refl|].
  assert (H : below (next_loc (world m)) m (save_initial_group m g)).
  { unfold save_initial_group. case_match; [apply below_foldl_save_initial|apply below_refl]. }
  eapply below_trans; [done|exact H|].
  eapply below_mono; [|apply IH]. apply H.
Qed.

Lemma check_arguments_generator d w :
  rng (check_arguments d w) = rng w
  ∧ default_dtype (check_arguments d w) = default_dtype w.
Proof. unfold check_arguments. by repeat case_decide. Qed.

(** ** Saved initial parameters are objects of their own *)

Lemma own_save_initial n m p :
  (n ≤ next_loc (world m))%nat → own n m → own n (save_initial m p).
Proof.
  intros Hn [Hrange Hinj]. split.
  - intros q l. rewrite anchor_of_save_initial. simpl. case_decide.
    + intros [= <-]. lia.
    + intros Hq. specialize (Hrange q l Hq). lia.
  - intros q r l. rewrite !anchor_of_save_initial.
    repeat case_decide; try congruence.
    + intros [= <-] Hr. specialize (Hrange r _ Hr). lia.
    + intros Hq [= <-]. specialize (Hrange q _ Hq). lia.
    + apply Hinj.
Qed.

Lemma own_foldl_save_initial n ps m :
  (n ≤ next_loc (world m))%nat → own n m → own n (foldl save_initial m ps).
Proof.
  revert m. induction ps as [|p ps IH]; intros m Hn Ho; simpl; [done|].
  apply IH; [simpl; lia|by apply own_save_initial].
Qed.

Lemma own_foldl_save_initial_group n gs m :
  (n ≤ next_loc (world m))%nat → own n m → own n (foldl save_initial_group m gs).
Proof.
  revert m. induction gs as [|g gs IH]; intros m Hn Ho; simpl; [done|].
  assert (H : below (next_loc (world m)) m (save_initial_group m g)).
  { unfold save_initial_group. case_match; [apply below_foldl_save_initial|apply below_refl]. }
  apply IH.
  - pose proof (bl_next _ _ _ H). lia.
  - unfold save_initial_group. case_match; [by apply own_foldl_save_initial|done].
Qed.

Lemma own_init ps d save w : own (next_loc w) (init ps d save w).
Proof.
  unfold init. simpl. apply own_foldl_save_initial_group.
  - simpl. by rewrite (proj1 (check_arguments_store d w)).
  - split.
    + intros p l. unfold anchor_of, state_of. simpl. rewrite lookup_empty. simpl.
      by rewrite lookup_empty.
    + intros p q l. unfold anchor_of, state_of. simpl. rewrite lookup_empty. simpl.
      by rewrite lookup_empty.
Qed.

(** With [localization = 0] and [bounding_box_size = 0] a group saves
    nothing. *)
Lemma save_initial_group_skip m g :
  localization g = 0 → bounding_box_size g = Some 0 → save_initial_group m g = m.
Proof.
  intros Hl Hb. unfold save_initial_group. rewrite Hl, Hb. simpl.
  unfold nonzero. rewrite bool_decide_eq_false_2 by (intros H; by apply H). done.
Qed.

(** ** The first [step] after construction *)

Lemma init_ready ps d save w :
  allocated ps w → fits (add_param_group d <$> ps) w →
  let m0 := init ps d save w in
  step_ready m0 ∧ anchors_apart (occurrences (param_groups (self m0))) m0.
Proof.
  intros Hall Hfit m0.
  destruct (init_spec ps d save w Hall) as (Hgs & _ & G & Hsaved).
  fold m0 in Hgs, G, Hsaved.
  destruct (check_arguments_store d w) as [Hnext Hheap].
  assert (Hlow : ∀ g p, g ∈ param_groups (self m0) → p ∈ params g →
                        (p_data p < next_loc w)%nat).
  { intros g p. rewrite Hgs. intros Hg Hp.
    apply list_elem_of_fmap in Hg as (s & -> & Hs). by apply (Hall s p). }
  split.
  - intros g p grad Hin Hgrad. apply elem_of_occurrences in Hin as [Hg Hp].
    assert (Hdata : heap (world m0) (p_data p) = heap w (p_data p)).
    { rewrite (gr_heap _ _ G), Hheap; [done|]. rewrite Hnext. by apply (Hlow g). }
    rewrite Hgs in Hg. destruct (Hfit g p grad Hg Hp Hgrad) as (Hlr & Hnl & Hsz).
    constructor; try done.
    + by rewrite Hdata.
    + intros Hneed. destruct (Hsaved g p) as [l Hl]; [by rewrite Hgs|done| |].
      { unfold needs_anchor in Hneed. apply orb_true_iff in Hneed as [->|Hb]; [done|].
        apply orb_true_iff. right. by destruct (bounding_box_size g). }
      exists l. split; [done|].
      destruct (gr_anchor _ _ G p l Hl) as (_ & _ & Hval).
      by rewrite Hval, Hdata, Hheap.
  - intros [g p] [g' q] l Hp Hq Hl. simpl in *.
    apply elem_of_occurrences in Hq as [Hg' Hq].
    destruct (gr_anchor _ _ G p l Hl) as (Hrange & _).
    specialize (Hlow g' q Hg' Hq). rewrite Hnext in Hrange. lia.
Qed.

(** ** Errors and what they leave behind *)

(** The update up to the noise needs the saved initial parameter only
    for the localization term. *)
Lemma langevin_run g p grad m :
  0 <= lr g → 0 <= noise_level g →
  size grad = size (heap (world m) (p_data p)) →
  (nonzero (localization g) = true →
    ∃ l, anchor_of (self m) p = Some l
         ∧ size (heap (world m) l) = size (heap (world m) (p_data p))) →
  log_ok m →
  ∃ m1, langevin g p grad m = (Ok tt, m1)
    ∧ rng (world m1) = advance (size grad) (rng (world m))
    ∧ noise (self m1) = logged (save_noise (self m)) (drawn g grad m) (noise (self m))
    ∧ ∀ i v gr a n,
        elems (heap (world m) (p_data p)) !! i = Some v →
        elems grad !! i = Some gr →
        (nonzero (localization g) = true →
           ∃ l, anchor_of (self m) p = Some l ∧ elems (heap (world m) l) !! i = Some a) →
        elems (drawn g grad m) !! i = Some n →
        elems (heap (world m1) (p_data p)) !! i
        = Some (v - 0.5 * lr g * drift_at g v gr a + sqrt (lr g) * n).
Proof.
  intros Hlr Hnl Hgrad Hanchor Hlog.
  unfold langevin. rewrite bind_run. simpl.
  set (m0 := set_self _ m).
  destruct (drift_spec g p grad m0) as (dw & Hdw & Hsz & Hdev & Hel); [done| |].
  { intros Eloc. destruct Hanchor as (l & Hl & Hlsz).
    - done.
    - exists l. split; [|done]. subst m0. simpl. by rewrite anchor_of_self_state. }
  rewrite bind_run, Hdw, bind_run. unfold add_ at 1. simpl.
  rewrite decide_True by congruence.
  rewrite bind_run. unfold torch_normal. simpl.
  rewrite decide_True by done.
  rewrite bind_run. unfold record_noise. simpl.
  assert (Hpow : ∀ m', pow_half (lr g) m' = (Ok (sqrt (lr g)), m')).
  { intros m'. unfold pow_half. by rewrite decide_True. }
  assert (Hval : ∀ i v gr a n,
    elems (heap (world m) (p_data p)) !! i = Some v →
    elems grad !! i = Some gr →
    (nonzero (localization g) = true →
       ∃ l, anchor_of (self m) p = Some l ∧ elems (heap (world m) l) !! i = Some a) →
    elems (drawn g grad m) !! i = Some n →
    zip_with (λ x y, x + sqrt (lr g) * y)
      (zip_with (λ x y, x + -0.5 * lr g * y) (elems (heap (world m) (p_data p))) (elems dw))
      (elems (drawn g grad m)) !! i
    = Some (v - 0.5 * lr g * drift_at g v gr a + sqrt (lr g) * n)).
  { intros i v gr a n Hv Hgr Ha Hn.
    rewrite !lookup_zip_with, Hv, (Hel i v gr a), Hn; try done.
    - simpl. f_equal. lra.
    - intros Eloc. destruct (Ha Eloc) as (l & Hl & Hla). exists l. split; [|done].
      subst m0. simpl. by rewrite anchor_of_self_state. }
  assert (Hsz2 : size (add_alpha_val (heap (world m) (p_data p)) dw (-0.5 * lr g))
                 = size (drawn g grad m)).
  { rewrite size_add_alpha_val by congruence. unfold drawn. by rewrite size_normal_val. }
  unfold drawn in *. rewrite Hsz, Hdev.
  destruct (save_noise (self m)) eqn:Esave.
  - destruct Hlog as [log Hlog]; [done|]. rewrite Hlog.
    rewrite bind_run, Hpow. unfold add_. simpl. rewrite fn_lookup_insert.
    rewrite decide_True by done.
    eexists; split; [reflexivity|]. simpl. split; [done|]. split; [done|].
    intros i v gr a n Hv Hgr Ha Hn. rewrite fn_lookup_insert. simpl. eauto.
  - rewrite bind_run, Hpow. unfold add_. simpl. rewrite fn_lookup_insert.
    rewrite decide_True by done.
    eexists; split; [reflexivity|]. simpl. split; [done|]. split; [done|].
    intros i v gr a n Hv Hgr Ha Hn. rewrite fn_lookup_insert. simpl. eauto.
Qed.

Lemma advance_advance a b g : advance b (advance a g) = advance (a + b) g.
Proof. unfold advance. simpl. f_equal. lia. Qed.

Lemma advance_0 g : advance 0 g = g.
Proof. destruct g. unfold advance. simpl. f_equal. lia. Qed.

Lemma run_rng occ m :
  Ready occ m → log_ok m →
  ∃ m', for_each occ visit m = (Ok tt, m')
    ∧ rng (world m') = advance (drawn_count occ) (rng (world m)).
Proof.
  revert m. induction occ as [|[g p] occ IH]; intros m Hr Hlog; simpl.
  - eexists; split; [done|]. by rewrite advance_0.
  - rewrite bind_run. unfold visit at 1. simpl.
    pose proof (respects_update_param g p m) as F.
    destruct (p_grad p) as [grad|] eqn:Eg.
    + destruct (update_param_spec g p grad m) as (m1 & E & Hrng & _); try done.
      { apply Hr; [left|done]. }
      rewrite E in *. simpl in F.
      destruct (IH m1) as (m' & E' & Hrng').
      * eapply Ready_frame; [done|]. by eapply Ready_tail.
      * by eapply log_ok_frame.
      * exists m'. split; [done|].
        rewrite Hrng', Hrng, advance_advance. unfold drawn_count. simpl. by rewrite Eg.
    + unfold update_param in *. rewrite Eg in *. simpl in *.
      destruct (IH m) as (m' & E' & Hrng'); [by eapply Ready_tail|done|].
      exists m'. split; [done|]. rewrite Hrng'. unfold drawn_count. simpl. by rewrite Eg.
Qed.

(** ** The clamp *)

Lemma clamp1_inside x lo hi : lo <= x <= hi → clamp1 x lo hi = x.
Proof. intros H. unfold clamp1, Rmin, Rmax. repeat destruct (Rle_dec _ _); lra. Qed.

Lemma clamp1_above x lo hi : lo <= hi → hi <= x → clamp1 x lo hi = hi.
Proof. intros H1 H2. unfold clamp1, Rmin, Rmax. repeat destruct (Rle_dec _ _); lra. Qed.

Lemma clamp1_under x lo hi : lo <= hi → x <= lo → clamp1 x lo hi = lo.
Proof. intros H1 H2. unfold clamp1, Rmin, Rmax. repeat destruct (Rle_dec _ _); lra. Qed.

Lemma clamp1_crossed x lo hi : hi < lo → clamp1 x lo hi = hi.
Proof. intros H. unfold clamp1, Rmin, Rmax. repeat destruct (Rle_dec _ _); lra. Qed.

(** A parameter with a gradient in a group with a box: where each of its
    elements comes from. *)
Lemma step_boxed m g p grad b :
  step_ready m → separated m →
  g ∈ param_groups (self m) → p ∈ params g → p_grad p = Some grad →
  bounding_box_size g = Some b → b ≠ 0 →
  ∃ m' l c, step m = (Ok tt, m')
    ∧ anchor_of (self m) p = Some l
    ∧ anchor_of (self m') p = Some l
    ∧ heap (world m') l = heap (world m) l
    ∧ ∀ i x, elems (heap (world m') (p_data p)) !! i = Some x →
        ∃ v gr a,
          elems (heap (world m) (p_data p)) !! i = Some v
          ∧ elems grad !! i = Some gr
          ∧ elems (heap (world m) l) !! i = Some a
          ∧ x = clamp1 (unclamped g v gr a (samples (rng (world m)) (c + i)%nat))
                       (a - b) (a + b).
Proof.
  intros Hr Hsep Hg Hp Hgrad Hb Hne.
  destruct (step_value m g p grad Hr Hsep Hg Hp Hgrad) as (m' & c & E & Hval).
  pose proof (frame_step m) as F. rewrite E in F. simpl in F.
  assert (Hocc : (g, p) ∈ occurrences (param_groups (self m)))
    by (by apply elem_of_occurrences).
  assert (Htruthy : nonzero b = true) by (by apply bool_decide_eq_true_2).
  assert (Hneed : needs_anchor g = true).
  { apply truthy_needs_anchor. by rewrite Hb. }
  destruct (Hr g p grad Hocc Hgrad) as [_ _ Hsz Hanchor].
  destruct (Hanchor Hneed) as (l & Hl & Hlsz).
  assert (Hkeep : heap (world m') l = heap (world m) l).
  { rewrite (fr_heap _ _ _ F); [done|].
    intros (gq & Hq & Heq & _). revert Heq. by apply (proj2 Hsep (g, p) gq). }
  exists m', l, c. split; [done|]. split; [done|].
  split; [by rewrite (fr_anchor _ _ _ F)|]. split; [done|].
  intros i x Hx.
  assert (Hi : (i < size (heap (world m) (p_data p)))%nat).
  { pose proof (fr_size _ _ _ F (p_data p)) as Hs. simpl in Hs.
    rewrite <- Hs. by eapply lookup_lt_Some. }
  destruct (lookup_lt_is_Some_2 (elems (heap (world m) (p_data p))) i Hi) as [v Hv].
  destruct (lookup_lt_is_Some_2 (elems grad) i) as [gr Hgr]; [unfold size in *; lia|].
  destruct (lookup_lt_is_Some_2 (elems (heap (world m) l)) i) as [a Ha];
    [unfold size in *; lia|].
  exists v, gr, a. split_and!; try done.
  rewrite (Hval i v gr a (0 + noise_level g * samples (rng (world m)) (c + i)%nat)) in Hx;
    try done.
  - injection Hx as <-. unfold box. by rewrite Hb, Htruthy.
  - intros _. by exists l.
  - apply normal_val_lookup. unfold size in *. lia.
Qed.

(** ** What [step] keeps *)

Lemma step_groups m : param_groups (self (step m).2) = param_groups (self m).
Proof. apply (fr_groups _ _ _ (frame_step m)). Qed.

Lemma step_ready_next m : step_ready m → step_ready (step m).2.
Proof.
  intros Hr. unfold step_ready. rewrite step_groups.
  eapply Ready_frame; [apply frame_step|]. by apply Ready_reset.
Qed.

Lemma separated_next m : separated m → separated (step m).2.
Proof.
  intros [Hnd Hap]. unfold separated. rewrite step_groups. split; [done|].
  intros gp gq l Hp Hq. rewrite (fr_anchor _ _ _ (frame_step m)). by apply Hap.
Qed.

Lemma NoDup_data_locs occ gp gq :
  NoDup (data_locs occ) → gp ∈ occ → gq ∈ occ → p_data gp.2 = p_data gq.2 → gp = gq.
Proof.
  intros Hnd Hp Hq Heq.
  apply list_elem_of_lookup in Hp as [i Hi], Hq as [j Hj].
  assert (i = j) as ->.
  { apply (NoDup_lookup _ i j (p_data gp.2) Hnd).
    - unfold data_locs. by rewrite list_lookup_fmap, Hi.
    - unfold data_locs. by rewrite list_lookup_fmap, Hj, Heq. }
  congruence.
Qed.

Lemma in_box_next m :
  step_ready m → separated m → in_box m → in_box (step m).2.
Proof.
  intros Hr Hsep Hbox g p b Hg Hp Hb Hpos. rewrite step_groups in Hg.
  destruct (p_grad p) as [grad|] eqn:Egrad.
  - destruct (step_boxed m g p grad b) as (m' & l & c & E & _ & Hl & Hkeep & Hval);
      try done; [lra|].
    rewrite E. simpl. exists l. split; [done|]. intros i x Hx.
    destruct (Hval i x Hx) as (v & gr & a & _ & _ & Ha & ->).
    exists a. rewrite Hkeep. split; [done|]. apply clamp1_bounds. lra.
  - destruct (Hbox g p b Hg Hp Hb Hpos) as (l & Hl & Hin).
    pose proof (frame_step m) as F.
    assert (Hocc : (g, p) ∈ occurrences (param_groups (self m)))
      by (by apply elem_of_occurrences).
    exists l. split; [by rewrite (fr_anchor _ _ _ F)|].
    rewrite !(fr_heap _ _ _ F); [done| |].
    + intros (gq & Hq & Heq & _). revert Heq. by apply (proj2 Hsep (g, p) gq).
    + intros (gq & Hq & Heq & Hsome).
      assert ((g, p) = gq) as <- by (by apply (NoDup_data_locs _ _ _ (proj1 Hsep))).
      simpl in Hsome. rewrite Egrad in Hsome. by destruct Hsome.
Qed.

Lemma in_box_init ps d save w : allocated ps w → in_box (init ps d save w).
Proof.
  intros Hall g p b Hg Hp Hb Hpos.
  destruct (init_spec ps d save w Hall) as (Hgs & _ & G & Hsaved).
  destruct (check_arguments_store d w) as [Hnext Hheap].
  destruct (Hsaved g p Hg Hp) as [l Hl].
  { rewrite Hb. simpl. unfold nonzero.
    rewrite (bool_decide_eq_true_2 (b ≠ 0)) by lra. apply orb_true_r. }
  exists l. split; [done|]. intros i x Hx.
  destruct (gr_anchor _ _ G p l Hl) as (Hrange & _ & Hval).
  rewrite Hval, <- (gr_heap _ _ G) by lia.
  exists x. split; [done|]. lra.
Qed.

Lemma steps_keep n m :
  step_ready m → separated m → in_box m →
  ∃ m', steps n m = (Ok tt, m') ∧ step_ready m' ∧ separated m' ∧ in_box m'.
Proof.
  revert m. induction n as [|n IH]; intros m Hr Hsep Hbox; simpl.
  - by exists m.
  - destruct (step_ok m Hr) as (m1 & E). rewrite bind_run, E.
    apply IH.
    + pose proof (step_ready_next m Hr) as H. by rewrite E in H.
    + pose proof (separated_next m Hsep) as H. by rewrite E in H.
    + pose proof (in_box_next m Hr Hsep Hbox) as H. by rewrite E in H.
Qed.

(** ** The dictionaries of [self.state] *)

Lemma keeps_state_ret {A} (a : A) : keeps_state (mret a).
Proof. by intros m. Qed.

Lemma keeps_state_bind {A B} (c : M A) (k : A → M B) :
  keeps_state c → (∀ a, keeps_state (k a)) → keeps_state (c ≫= k).
Proof.
  intros Hc Hk m. rewrite bind_run. specialize (Hc m).
  destruct (c m) as [[a|e] m1]; simpl in *; [|done].
  by rewrite Hk.
Qed.

Lemma keeps_state_load l : keeps_state (load l).
Proof. by intros m. Qed.

Lemma keeps_state_add_alpha t o a : keeps_state (add_alpha t o a).
Proof. intros m. unfold add_alpha. by case_decide. Qed.

Lemma keeps_state_sub t o : keeps_state (sub t o).
Proof. intros m. unfold sub. by case_decide. Qed.

Lemma keeps_state_pow_half x : keeps_state (pow_half x).
Proof. intros m. unfold pow_half. by case_decide. Qed.

Lemma keeps_state_initial_param p : keeps_state (initial_param p).
Proof. intros m. unfold initial_param. by case_match. Qed.

Lemma keeps_state_add_ l o a : keeps_state (add_ l o a).
Proof. intros m. unfold add_. by case_decide. Qed.

Lemma keeps_state_clamp_ l lo hi : keeps_state (clamp_ l lo hi).
Proof. intros m. unfold clamp_. by case_decide. Qed.

Lemma keeps_state_torch_normal mean std n dev : keeps_state (torch_normal mean std n dev).
Proof. intros m. unfold torch_normal. by case_decide. Qed.

Lemma keeps_state_record_noise t : keeps_state (record_noise t).
Proof. intros m. unfold record_noise. by repeat case_match. Qed.

Ltac keeps_state_tac :=
  repeat first
    [ apply keeps_state_bind; [|intros ?]
    | apply keeps_state_load | apply keeps_state_add_alpha | apply keeps_state_sub
    | apply keeps_state_pow_half | apply keeps_state_initial_param
    | apply keeps_state_torch_normal | apply keeps_state_record_noise
    | apply keeps_state_add_ | apply keeps_state_clamp_
    | apply (@keeps_state_ret Tensor) | apply (@keeps_state_ret unit)
    | case_match ].

Lemma keeps_state_rebound g p : keeps_state (rebound g p).
Proof. unfold rebound. keeps_state_tac. Qed.

(** Only line 100 touches [self.state]: it makes sure the parameter has
    a dictionary. *)
Lemma update_param_state g p m :
  state (self (update_param g p m).2)
  = match p_grad p with
    | Some _ => <[p_data p := state_of (self m) p]> (state (self m))
    | None => state (self m)
    end.
Proof.
  unfold update_param. destruct (p_grad p) as [grad|]; [|done].
  assert (H : keeps_state
    (dw ← drift g p grad;
     add_ (p_data p) dw (-0.5 * lr g);;
     n ← torch_normal 0 (noise_level g) (size dw) (t_device dw);
     record_noise n;;
     alpha ← pow_half (lr g);
     add_ (p_data p) n alpha)).
  { unfold drift. keeps_state_tac. }
  rewrite bind_run. unfold langevin. rewrite bind_run. simpl.
  set (m0 := set_self _ m). specialize (H m0).
  destruct ((drift g p grad ≫= _) m0) as [[[]|e] m1]; simpl in *.
  - by rewrite keeps_state_rebound, H.
  - done.
Qed.

Lemma run_state occ m :
  Ready occ m → log_ok m →
  ∃ m', for_each occ visit m = (Ok tt, m')
    ∧ ∀ k, state (self m') !! k
           = if decide (k ∈ data_locs (with_grad occ))
             then Some (default ∅ (state (self m) !! k))
             else state (self m) !! k.
Proof.
  revert m. induction occ as [|[g p] occ IH]; intros m Hr Hlog.
  { exists m. split; [done|]. intros k. rewrite decide_False; [done|].
    unfold with_grad, data_locs. simpl. apply not_elem_of_nil. }
  destruct (visit_spec (g, p) m) as (m1 & E1 & F1); [|done|].
  { intros g' p' grad' Hin'. apply Hr. apply list_elem_of_singleton in Hin' as ->. left. }
  destruct (IH m1) as (m' & E' & Hst).
  { eapply Ready_frame; [done|]. by eapply Ready_tail. }
  { by eapply log_ok_frame. }
  exists m'. simpl. rewrite bind_run, E1. split; [done|].
  pose proof (update_param_state g p m) as Hup.
  unfold visit in E1. simpl in E1. rewrite E1 in Hup. simpl in Hup.
  intros k. rewrite Hst, Hup. unfold with_grad, data_locs. rewrite filter_cons. simpl.
  destruct (p_grad p) as [grad|] eqn:Eg.
  - rewrite (decide_True (P := is_Some _)) by (by eexists). simpl.
    destruct (decide (k = p_data p)) as [->|Hne].
    + rewrite lookup_insert_eq. rewrite (decide_True (P := _ ∈ _ :: _)) by left.
      unfold state_of. by case_decide.
    + rewrite lookup_insert_ne by done. apply decide_ext.
      rewrite elem_of_cons. tauto.
  - by rewrite (decide_False (P := is_Some _)) by (by intros [? ?]).
Qed.

Lemma one_machine_in_box g v grad :
  params (g [one_param grad]) = [one_param grad] →
  in_box (one_machine g v v grad).
Proof.
  intros HG g' p b Hg Hp Hb Hpos.
  apply list_elem_of_singleton in Hg as ->. rewrite HG in Hp.
  apply list_elem_of_singleton in Hp as ->.
  exists 1%nat. split; [done|]. intros [|i] x Hx; [|done].
  injection Hx as <-. exists v. split; [done|]. lra.
Qed.

(** ** The noise of a step, parameter by parameter *)

Lemma with_grad_cons_some g p grad occ :
  p_grad p = Some grad → with_grad ((g, p) :: occ) = (g, p) :: with_grad occ.
Proof.
  intros E. unfold with_grad. rewrite filter_cons. simpl.
  rewrite E. by rewrite (decide_True (P := is_Some _)) by (by eexists).
Qed.

Lemma with_grad_cons_none g p occ :
  p_grad p = None → with_grad ((g, p) :: occ) = with_grad occ.
Proof.
  intros E. unfold with_grad. rewrite filter_cons. simpl.
  rewrite E. by rewrite (decide_False (P := is_Some _)) by (by intros [? ?]).
Qed.

Lemma elem_of_with_grad occ gp : gp ∈ with_grad occ → gp ∈ occ.
Proof. unfold with_grad. rewrite list_elem_of_filter. by intros [_ ?]. Qed.

Lemma drawn_count_cons g p grad occ :
  p_grad p = Some grad → drawn_count ((g, p) :: occ) = (size grad + drawn_count occ)%nat.
Proof. intros E. unfold drawn_count. simpl. by rewrite E. Qed.

Lemma length_draws gen dt occ : length (draws gen dt occ) = length (with_grad occ).
Proof.
  revert gen. induction occ as [|[g p] occ IH]; intros gen; [done|]. simpl.
  destruct (p_grad p) as [grad|] eqn:E.
  - rewrite (with_grad_cons_some _ _ grad) by done. simpl. by rewrite IH.
  - by rewrite with_grad_cons_none.
Qed.

(** The [k]-th tensor drawn along a run is the one for the [k]-th
    occurrence with a gradient, on the generator after the draws before. *)
Lemma draws_lookup gen dt occ k g p grad :
  with_grad occ !! k = Some (g, p) → p_grad p = Some grad →
  draws gen dt occ !! k
  = Some (normal_val (advance (drawn_count (take k (with_grad occ))) gen)
            0 (noise_level g) (size grad) (t_device grad) dt).
Proof.
  revert gen k. induction occ as [|[g0 p0] occ IH]; intros gen k Hk Hgrad; [done|].
  simpl. destruct (p_grad p0) as [grad0|] eqn:E0.
  - rewrite (with_grad_cons_some _ _ grad0) in * by done.
    destruct k as [|k]; simpl in *.
    + injection Hk as -> ->. assert (grad0 = grad) as -> by congruence.
      by rewrite advance_0.
    + rewrite (IH _ k) by done.
      by rewrite (drawn_count_cons _ _ grad0), advance_advance.
  - rewrite with_grad_cons_none in * by done. by apply IH.
Qed.

(** The run over [occ], seen from its [k]-th occurrence with a gradient:
    the value it leaves, with the noise that was drawn for it. *)
Lemma run_trace occ m k g p grad :
  Ready occ m → log_ok m → NoDup (data_locs occ) → anchors_apart occ m →
  with_grad occ !! k = Some (g, p) → p_grad p = Some grad →
  ∃ m', for_each occ visit m = (Ok tt, m')
    ∧ ∀ i v gr a n,
        elems (heap (world m) (p_data p)) !! i = Some v →
        elems grad !! i = Some gr →
        (needs_anchor g = true →
           ∃ l, anchor_of (self m) p = Some l ∧ elems (heap (world m) l) !! i = Some a) →
        elems (normal_val (advance (drawn_count (take k (with_grad occ))) (rng (world m)))
                 0 (noise_level g) (size grad) (t_device grad)
                 (default_dtype (world m))) !! i = Some n →
        elems (heap (world m') (p_data p)) !! i
        = Some (box g a (v - 0.5 * lr g * drift_at g v gr a + sqrt (lr g) * n)).
Proof.
  revert m k. induction occ as [|[g0 p0] occ IH]; intros m k Hr Hlog Hnd Hap Hk Hgrad.
  { done. }
  simpl in Hnd. pose proof (NoDup_cons_1_1 _ _ Hnd) as Hhead.
  apply NoDup_cons_1_2 in Hnd.
  destruct (visit_spec (g0, p0) m) as (m1 & E1 & F1); [|done|].
  { intros g' p' grad' Hin'. apply Hr. apply list_elem_of_singleton in Hin' as ->. left. }
  assert (Hr1 : Ready occ m1) by (eapply Ready_frame; [done|]; by eapply Ready_tail).
  assert (Hlog1 : log_ok m1) by (by eapply log_ok_frame).
  assert (Hap1 : anchors_apart occ m1).
  { intros gp gq l Hgp Hgq. rewrite (fr_anchor _ _ _ F1). apply Hap; by right. }
  change (for_each ((g0, p0) :: occ) visit m)
    with ((visit (g0, p0);; for_each occ visit) m).
  rewrite bind_run, E1. unfold visit in E1. simpl in E1, F1.
  (* the case of a parameter visited later, [c] samples having been drawn *)
  assert (Hlater : ∀ k' c, with_grad occ !! k' = Some (g, p) →
    rng (world m1) = advance c (rng (world m)) →
    ∃ m', for_each occ visit m1 = (Ok tt, m')
      ∧ ∀ i v gr a n,
          elems (heap (world m) (p_data p)) !! i = Some v →
          elems grad !! i = Some gr →
          (needs_anchor g = true →
             ∃ l, anchor_of (self m) p = Some l ∧ elems (heap (world m) l) !! i = Some a) →
          elems (normal_val
                   (advance (c + drawn_count (take k' (with_grad occ))) (rng (world m)))
                   0 (noise_level g) (size grad) (t_device grad)
                   (default_dtype (world m))) !! i = Some n →
          elems (heap (world m') (p_data p)) !! i
          = Some (box g a (v - 0.5 * lr g * drift_at g v gr a + sqrt (lr g) * n))).
  { intros k' c Hk' Hrng.
    destruct (IH m1 k') as (m' & E' & Hval); try done.
    exists m'. split; [done|].
    assert (Hin : (g, p) ∈ occ).
    { apply elem_of_with_grad. by eapply list_elem_of_lookup_2. }
    assert (Hne : p_data p ≠ p_data p0).
    { intros Heq. apply Hhead. rewrite <- Heq.
      apply list_elem_of_fmap. by exists (g, p). }
    intros i v gr a n Hv Hgr Ha Hn. apply Hval; try done.
    - rewrite (fr_heap _ _ _ F1); [done|]. by intros [? _].
    - intros Hneed. destruct (Ha Hneed) as (l & Hl & Hla). exists l.
      rewrite (fr_anchor _ _ _ F1). split; [done|].
      rewrite (fr_heap _ _ _ F1); [done|]. intros [Heq _]. revert Heq.
      apply (Hap (g, p) (g0, p0)); [by right|left|done].
    - rewrite Hrng, advance_advance, (fr_dtype _ _ _ F1). exact Hn. }
  destruct (p_grad p0) as [grad0|] eqn:E0.
  - rewrite (with_grad_cons_some _ _ grad0) in Hk |- * by done.
    destruct (update_param_spec g0 p0 grad0 m) as (m1' & E & Hrng & _ & Hval); try done.
    { apply Hr; [left|done]. }
    assert (m1' = m1) as -> by congruence.
    destruct k as [|k]; simpl in Hk.
    + (* the parameter is visited now; the rest of the run leaves it alone *)
      injection Hk as -> ->. assert (grad0 = grad) as -> by congruence.
      destruct (run_ok occ m1 Hr1 Hlog1) as (m' & E').
      pose proof (respects_visits occ m1) as F. rewrite E' in F. simpl in F.
      exists m'. split; [done|]. intros i v gr a n Hv Hgr Ha Hn.
      rewrite (fr_heap _ _ _ F).
      * apply Hval; try done.
        -- intros Hneed. destruct (Ha Hneed) as (l & Hl & Hla). exists l.
           split; [done|]. split; [|done].
           apply (Hap (g, p) (g, p)); [left|left|done].
        -- change (drawn_count (take 0 _)) with 0%nat in Hn.
           rewrite advance_0 in Hn. exact Hn.
      * intros Hw. apply Hhead. by apply written_data_locs.
    + (* it is visited later, after the draw for this one *)
      change (take (S k) ((g0, p0) :: with_grad occ))
        with ((g0, p0) :: take k (with_grad occ)).
      rewrite (drawn_count_cons _ _ grad0) by done.
      by apply (Hlater k (size grad0)).
  - (* no gradient here: nothing is drawn *)
    rewrite with_grad_cons_none in Hk |- * by done.
    unfold update_param in E1. rewrite E0 in E1. injection E1 as <-.
    apply (Hlater k 0%nat Hk). by rewrite advance_0.
Qed.

Lemma step_trace m k g p grad :
  step_ready m → separated m →
  with_grad (occurrences (param_groups (self m))) !! k = Some (g, p) →
  p_grad p = Some grad →
  ∃ m', step m = (Ok tt, m')
    ∧ ∀ i v gr a n,
        elems (heap (world m) (p_data p)) !! i = Some v →
        elems grad !! i = Some gr →
        (needs_anchor g = true →
           ∃ l, anchor_of (self m) p = Some l ∧ elems (heap (world m) l) !! i = Some a) →
        elems (noise_for m k g grad) !! i = Some n →
        elems (heap (world m') (p_data p)) !! i
        = Some (box g a (v - 0.5 * lr g * drift_at g v gr a + sqrt (lr g) * n)).
Proof.
  intros Hr [Hnd Hap] Hk Hgrad. rewrite step_run.
  apply (run_trace _ (set_self (set_noise (Some [])) m) k g p grad); try done.
  - by apply Ready_reset.
  - apply log_ok_reset.
Qed.

Lemma two_machine_separated : separated two_machine.
Proof.
  split.
  - change (NoDup [0%nat; 1%nat]).
    apply NoDup_cons_2; [|apply NoDup_singleton].
    intros H. by apply list_elem_of_singleton in H.
  - intros gp gq l _ _ H. done.
Qed.

(** * The claims *)

(** ** Parameters without a gradient *)

(** C6.  A parameter that carries no gradient is skipped by [step]: the
    tensor object holding its value is the same after the call as before
    it (whether the call returns or raises). *)
Theorem step_skips_no_grad (m : Machine) (g : Group) (p : Param) :
  g ∈ param_groups (self m) → p ∈ params g →
  no_grad m (p_data p) →
  heap (world (step m).2) (p_data p) = heap (world m) (p_data p).
Proof.
  intros Hg Hp Hno.
  change (heap (world m)) with (heap (world (set_self (set_noise (Some [])) m))).
  apply (fr_heap _ _ _ (frame_step m)).
  intros ([g' q] & Hin & Heq & Hsome). simpl in *.
  apply elem_of_occurrences in Hin as [Hg' Hq].
  rewrite (Hno g' q) in Hsome by done. by destruct Hsome.
Qed.

Lemma step_skips_no_grad_witness :
  heap (world (step two_machine).2) 1%nat = scalar 3.
Proof.
  apply (step_skips_no_grad two_machine two_group (mkParam 1 None)).
  - apply list_elem_of_singleton. reflexivity.
  - right. left.
  - intros g p Hg Hp Hl.
    apply list_elem_of_singleton in Hg as ->.
    apply elem_of_cons in Hp as [->|Hp]; [discriminate Hl|].
    apply list_elem_of_singleton in Hp as ->. reflexivity.
Defined.

(** ** Construction *)

(** C7.  For a parameter of a group with [localization] non-zero or a
    bounding box set, construction saves an initial parameter that holds
    the value the parameter had when the optimizer was built, as a tensor
    object of its own; along any sequence of [step] calls and actions of
    the training loop it stays the saved object of that parameter and keeps
    that value. *)
Theorem initial_param_is_kept ps d save w g p m' :
  allocated ps w →
  let m0 := init ps d save w in
  g ∈ param_groups (self m0) → p ∈ params g →
  needs_anchor g = true →
  reachable m0 m' →
  ∃ l, anchor_of (self m0) p = Some l
    ∧ l ≠ p_data p
    ∧ heap (world m0) l = heap w (p_data p)
    ∧ anchor_of (self m') p = Some l
    ∧ heap (world m') l = heap w (p_data p).
Proof.
  intros Hall m0 Hg Hp Hneed Hreach.
  destruct (init_spec ps d save w Hall) as (Hgs & _ & G & Hsaved). fold m0 in Hgs, G, Hsaved.
  destruct (check_arguments_store d w) as [Hnext Hheap].
  destruct (Hsaved g p Hg Hp) as [l Hl].
  { unfold needs_anchor in Hneed. apply orb_true_iff in Hneed as [->|Hb]; [done|].
    apply orb_true_iff. right. by destruct (bounding_box_size g). }
  destruct (gr_anchor _ _ G p l Hl) as (Hlow & Hhigh & Hval).
  rewrite Hnext, Hheap in *.
  destruct (reachable_keeps (next_loc w) m0 m' Hreach) as (_ & Ha & Hh).
  { intros g' q. rewrite Hgs. intros Hg' Hq.
    apply list_elem_of_fmap in Hg' as (s & -> & Hs). by apply (Hall s q). }
  exists l. split_and!; try done.
  - lia.
  - by rewrite Ha.
  - rewrite Hh; [done|lia].
Qed.

Lemma initial_param_is_kept_witness :
  let m0 := init [plain [lone_param]] localized false lone_world in
  ∃ l, anchor_of (self m0) lone_param = Some l
    ∧ l ≠ 0%nat
    ∧ heap (world m0) l = scalar 10
    ∧ anchor_of (self (step m0).2) lone_param = Some l
    ∧ heap (world (step m0).2) l = scalar 10.
Proof.
  apply (initial_param_is_kept [plain [lone_param]] localized false lone_world
           (add_param_group localized (plain [lone_param])) lone_param).
  - intros s q Hs Hq. apply list_elem_of_singleton in Hs as ->.
    apply list_elem_of_singleton in Hq as ->. simpl. lia.
  - rewrite (proj1 (init_fields _ _ _ _)). left.
  - left.
  - unfold needs_anchor, nonzero. simpl.
    rewrite bool_decide_eq_true_2; [done|lra].
  - apply reach_step, reach_here.
Defined.

(** C1.  With the signature's defaults ([localization = 0.0] and
    [bounding_box_size = None]) construction does save an initial
    parameter for every parameter: [None != 0] holds, so the test on line
    89 passes.  (With [bounding_box_size = 0], the default the docstring
    names, nothing is saved.) *)
Theorem default_box_saves_initial_param (p : Param) (save : bool) (w : World) :
  anchor_of (self (init [plain [p]] signature_defaults save w)) p = Some (next_loc w)
  ∧ anchor_of (self (init [mkGroupSpec [p] None None None None None (Some (Some 0))]
                          signature_defaults save w)) p = None.
Proof.
  unfold init, save_initial_group. simpl.
  rewrite orb_true_r. simpl. split.
  - rewrite <- (proj1 (check_arguments_store signature_defaults w)).
    apply (anchor_of_save_initial_same (mkMachine _ _) p).
  - unfold nonzero. rewrite bool_decide_eq_false_2 by (intros H; by apply H).
    simpl. unfold anchor_of, state_of. simpl. rewrite lookup_empty. simpl.
    apply lookup_empty.
Qed.

(** C8.  Construction warns when [noise_level != 1.0] and when
    [temperature == 1.0], issues nothing else, and builds the optimizer
    all the same. *)
Theorem init_warns (ps : list GroupSpec) (d : Defaults) (save : bool) (w : World) :
  let m0 := init ps d save w in
  ∃ new, warnings (world m0) = warnings w ++ new
    ∧ new = expected_warnings d
    ∧ (d_noise_level d ≠ 1 → noise_level_warning ∈ new)
    ∧ (d_temperature d = 1 → temperature_warning ∈ new)
    ∧ (d_noise_level d = 1 → d_temperature d ≠ 1 → new = [])
    ∧ param_groups (self m0) = add_param_group d <$> ps
    ∧ save_noise (self m0) = save.
Proof.
  intros m0. destruct (init_fields ps d save w) as (Hg & Hs & _ & Hw).
  exists (expected_warnings d). fold m0 in Hg, Hs, Hw.
  rewrite Hw, check_arguments_warnings. split_and!; try done.
  - intros H. unfold expected_warnings. rewrite decide_True by done.
    apply elem_of_app. left. left.
  - intros H. unfold expected_warnings. rewrite (decide_True _ _ H).
    apply elem_of_app. right. left.
  - intros H1 H2. unfold expected_warnings.
    rewrite decide_False by (by intros ?). by rewrite decide_False.
Qed.

(** C10.  After construction [self.noise] is [None], whatever
    [save_noise] is; after a call of [step] (returning or raising) it is
    a list. *)
Theorem noise_is_none_until_step (ps : list GroupSpec) (d : Defaults) (save : bool)
    (w : World) :
  noise (self (init ps d save w)) = None
  ∧ ∀ m, is_Some (noise (self (step m).2)).
Proof.
  split; [apply init_fields|].
  intros m. apply (fr_noise _ _ _ (frame_step m)). by eexists.
Qed.

(** ** The update without noise *)

(** C2, as the code has it.  With every sample of the generator zero, one
    [step] takes each element [v] of a parameter with gradient element
    [gr] and saved initial element [a] to
    [v - 0.5*lr*(gr*temperature + weight_decay*v + localization*(v - a))],
    clamped into the box when the group has one. *)
Theorem step_without_noise (m : Machine) (g : Group) (p : Param) (grad : Tensor) :
  step_ready m → separated m →
  (∀ k, samples (rng (world m)) k = 0) →
  g ∈ param_groups (self m) → p ∈ params g → p_grad p = Some grad →
  ∃ m', step m = (Ok tt, m')
    ∧ ∀ i v gr a,
        elems (heap (world m) (p_data p)) !! i = Some v →
        elems grad !! i = Some gr →
        (needs_anchor g = true →
           ∃ l, anchor_of (self m) p = Some l ∧ elems (heap (world m) l) !! i = Some a) →
        elems (heap (world m') (p_data p)) !! i
        = Some (box g a
                  (v - 0.5 * lr g * (gr * temperature g + weight_decay g * v
                                     + localization g * (v - a)))).
Proof.
  intros Hr Hsep Hzero Hg Hp Hgrad.
  destruct (step_value m g p grad Hr Hsep Hg Hp Hgrad) as (m' & c & E & Hval).
  exists m'. split; [done|]. intros i v gr a Hv Hgr Ha.
  rewrite (Hval i v gr a (0 + noise_level g * 0)); try done.
  - f_equal. f_equal. unfold drift_at. lra.
  - rewrite normal_val_lookup by (by eapply lookup_lt_Some). simpl.
    by rewrite Hzero.
Qed.

Lemma step_without_noise_witness :
  ∃ m', step (one_machine pulled 12 10 (Some (scalar 0))) = (Ok tt, m')
        ∧ elems (heap (world m') 0%nat) !! 0%nat = Some 11.98.
Proof.
  destruct (step_without_noise (one_machine pulled 12 10 (Some (scalar 0)))
              (pulled [one_param (Some (scalar 0))]) (one_param (Some (scalar 0)))
              (scalar 0))
    as (m' & E & Hval).
  - apply one_machine_ready; simpl; [done|lra|lra].
  - by apply one_machine_separated.
  - done.
  - apply one_machine_group.
  - left.
  - done.
  - exists m'. split; [done|].
    assert (H : elems (heap (world m') 0%nat) !! 0%nat
                = Some (box (pulled [one_param (Some (scalar 0))]) 10
                          (12 - 0.5 * 0.04 * (0 * 1 + 0 * 12 + 0.5 * (12 - 10))))).
    { apply (Hval 0%nat 12 0 10); [done|done|by exists 1%nat]. }
    rewrite H. f_equal. unfold box. simpl. lra.
Defined.

(** C2 as stated fails when the group has a bounding box: with
    [bounding_box_size = 1], value 5, saved initial value 5, gradient -115
    and [lr = 0.04], the formula gives 7.3 and [step] leaves 6. *)
Lemma step_without_noise_counterexample :
  ∃ m', step (one_machine (boxed 1) 5 5 (Some (scalar (-115)))) = (Ok tt, m')
        ∧ elems (heap (world m') 0%nat) !! 0%nat = Some 6
        ∧ 6 ≠ 5 - 0.5 * 0.04 * (-115 * 1 + 0 * 5 + 0 * (5 - 5)).
Proof.
  destruct (step_value (one_machine (boxed 1) 5 5 (Some (scalar (-115))))
              (boxed 1 [one_param (Some (scalar (-115)))])
              (one_param (Some (scalar (-115)))) (scalar (-115)))
    as (m' & c & E & Hval).
  - apply one_machine_ready; simpl; [done|lra|lra].
  - by apply one_machine_separated.
  - apply one_machine_group.
  - left.
  - done.
  - exists m'. split; [done|]. split; [|lra].
    assert (H : elems (heap (world m') 0%nat) !! 0%nat
                = Some (box (boxed 1 [one_param (Some (scalar (-115)))]) 5
                          (5 - 0.5 * 0.04 * drift_at (boxed 1 [one_param (Some (scalar (-115)))])
                                                     5 (-115) 5
                           + sqrt 0.04 * (0 + 1 * 0)))).
    { apply (Hval 0%nat 5 (-115) 5); [done|done|by exists 1%nat|done]. }
    rewrite H. f_equal. unfold box, drift_at, nonzero. simpl.
    rewrite bool_decide_eq_true_2 by lra.
    unfold clamp1, Rmin, Rmax. repeat destruct (Rle_dec _ _); lra.
Qed.

(** ** The Langevin update *)

(** C3.  For the [k]-th parameter with a gradient that [step] visits,
    [step] returns and leaves each element at the clamp (the identity
    when the group has no box) of [v - 0.5*lr*dw + lr^0.5 * n]: [dw] is
    the sum of the gradient term, the decay term and the localization
    term, formed before any scaling; it is scaled by [lr] (and one half),
    the noise [n] drawn for the parameter by the square root of [lr]. *)
Theorem step_langevin_update (m : Machine) (k : nat) (g : Group) (p : Param)
    (grad : Tensor) :
  step_ready m → separated m →
  with_grad (occurrences (param_groups (self m))) !! k = Some (g, p) →
  p_grad p = Some grad →
  ∃ m', step m = (Ok tt, m')
    ∧ ∀ i v gr a n,
        elems (heap (world m) (p_data p)) !! i = Some v →
        elems grad !! i = Some gr →
        (needs_anchor g = true →
           ∃ l, anchor_of (self m) p = Some l ∧ elems (heap (world m) l) !! i = Some a) →
        elems (noise_for m k g grad) !! i = Some n →
        let dw := gr * temperature g + weight_decay g * v + localization g * (v - a) in
        let y := v - 0.5 * lr g * dw + sqrt (lr g) * n in
        elems (heap (world m') (p_data p)) !! i = Some (box g a y)
        ∧ (truthy (bounding_box_size g) = false →
           elems (heap (world m') (p_data p)) !! i = Some y).
Proof.
  intros Hr Hsep Hk Hgrad.
  destruct (step_trace m k g p grad Hr Hsep Hk Hgrad) as (m' & E & Hval).
  exists m'. split; [done|]. intros i v gr a n Hv Hgr Ha Hn. cbv zeta.
  pose proof (Hval i v gr a n Hv Hgr Ha Hn) as H. unfold drift_at in H.
  split; [done|]. intros Hbox. rewrite H. f_equal.
  unfold box. destruct (bounding_box_size g) as [b|]; [|done].
  simpl in Hbox. by rewrite Hbox.
Qed.

Lemma step_langevin_update_witness :
  ∃ m', step two_machine = (Ok tt, m')
        ∧ elems (heap (world m') 0%nat) !! 0%nat = Some 10.16.
Proof.
  destruct (step_langevin_update two_machine 0 two_group (mkParam 0 (Some (scalar 2)))
              (scalar 2))
    as (m' & E & Hval).
  - apply two_machine_ready.
  - apply two_machine_separated.
  - reflexivity.
  - reflexivity.
  - exists m'. split; [done|].
    destruct (Hval 0%nat 10 2 0 (0 + 1 * 1)) as [_ H]; [done|done| |done|].
    { intros Hneed. exfalso. revert Hneed. unfold needs_anchor, nonzero. simpl.
      rewrite bool_decide_eq_false_2; [done|]. intros H. by apply H. }
    specialize (H eq_refl). simpl in H. rewrite H, sqrt_0_04. f_equal. lra.
Defined.

(** ** The bounding box *)

(** C4, as the code has it.  After a [step], every element of a
    parameter that had a gradient, in a group whose bounding box has a
    positive size [b], lies within [b] of the saved initial element,
    however far the update went. *)
Theorem step_keeps_box (m : Machine) (g : Group) (p : Param) (grad : Tensor) (b : R) :
  step_ready m → separated m →
  g ∈ param_groups (self m) → p ∈ params g → p_grad p = Some grad →
  bounding_box_size g = Some b → 0 < b →
  ∃ m' l, step m = (Ok tt, m')
    ∧ anchor_of (self m') p = Some l
    ∧ heap (world m') l = heap (world m) l
    ∧ ∀ i x, elems (heap (world m') (p_data p)) !! i = Some x →
        ∃ a, elems (heap (world m') l) !! i = Some a ∧ a - b <= x <= a + b.
Proof.
  intros Hr Hsep Hg Hp Hgrad Hb Hpos.
  destruct (step_value m g p grad Hr Hsep Hg Hp Hgrad) as (m' & c & E & Hval).
  pose proof (frame_step m) as F. rewrite E in F. simpl in F.
  assert (Hocc : (g, p) ∈ occurrences (param_groups (self m)))
    by (by apply elem_of_occurrences).
  assert (Hneed : needs_anchor g = true).
  { apply truthy_needs_anchor. rewrite Hb. simpl. unfold nonzero.
    apply bool_decide_eq_true_2. lra. }
  destruct (Hr g p grad Hocc Hgrad) as [_ _ Hsz Hanchor].
  destruct (Hanchor Hneed) as (l & Hl & Hlsz).
  assert (Hkeep : heap (world m') l = heap (world m) l).
  { rewrite (fr_heap _ _ _ F); [done|].
    intros (gq & Hq & Heq & _). revert Heq. by apply (proj2 Hsep (g, p) gq). }
  exists m', l. split; [done|]. split; [by rewrite (fr_anchor _ _ _ F)|].
  split; [done|]. intros i x Hx. rewrite Hkeep.
  assert (Hi : (i < size (heap (world m) (p_data p)))%nat).
  { pose proof (fr_size _ _ _ F (p_data p)) as Hs. simpl in Hs.
    rewrite <- Hs. by eapply lookup_lt_Some. }
  destruct (lookup_lt_is_Some_2 (elems (heap (world m) (p_data p))) i Hi) as [v Hv].
  destruct (lookup_lt_is_Some_2 (elems grad) i) as [gr Hgr]; [unfold size in *; lia|].
  destruct (lookup_lt_is_Some_2 (elems (heap (world m) l)) i) as [a Ha];
    [unfold size in *; lia|].
  exists a. split; [done|].
  rewrite (Hval i v gr a (0 + noise_level g * samples (rng (world m)) (c + i)%nat)) in Hx;
    try done.
  - injection Hx as <-. unfold box. rewrite Hb.
    replace (nonzero b) with true
      by (symmetry; apply bool_decide_eq_true_2; lra).
    apply clamp1_bounds. lra.
  - intros _. by exists l.
  - apply normal_val_lookup. unfold size in *. lia.
Qed.

Lemma step_keeps_box_witness :
  ∃ m', step (one_machine (boxed 1) 5 5 (Some (scalar (-115)))) = (Ok tt, m')
    ∧ ∀ i x, elems (heap (world m') 0%nat) !! i = Some x →
        ∃ a, elems (heap (world m') 1%nat) !! i = Some a ∧ a - 1 <= x <= a + 1.
Proof.
  destruct (step_keeps_box (one_machine (boxed 1) 5 5 (Some (scalar (-115))))
              (boxed 1 [one_param (Some (scalar (-115)))])
              (one_param (Some (scalar (-115)))) (scalar (-115)) 1)
    as (m' & l & E & Hl & _ & Hbox).
  - apply one_machine_ready; simpl; [done|lra|lra].
  - by apply one_machine_separated.
  - apply one_machine_group.
  - left.
  - done.
  - done.
  - lra.
  - exists m'. split; [done|].
    pose proof (frame_step (one_machine (boxed 1) 5 5 (Some (scalar (-115))))) as F.
    rewrite E in F. simpl in F.
    rewrite (fr_anchor _ _ _ F) in Hl. injection Hl as <-. exact Hbox.
Defined.

(** C4 as stated fails in two ways.  With a negative size the box is
    empty and the clamp leaves every element at the saved initial value
    plus the size: for size -1 and saved value 5 the element becomes 4,
    not within [6, 4].  And a parameter without a gradient is skipped, so
    it is not clamped: at 12, with saved value 10 and size 1, it stays at
    12, outside [9, 11]. *)
Lemma step_keeps_box_counterexample :
  (∃ m', step (one_machine (boxed (-1)) 5 5 (Some (scalar 0))) = (Ok tt, m')
     ∧ bounding_box_size (boxed (-1) [one_param (Some (scalar 0))]) = Some (-1)
     ∧ anchor_of (self m') (one_param (Some (scalar 0))) = Some 1%nat
     ∧ elems (heap (world m') 1%nat) !! 0%nat = Some 5
     ∧ elems (heap (world m') 0%nat) !! 0%nat = Some 4
     ∧ ¬ (5 - -1 <= 4 <= 5 + -1))
  ∧ (∃ m', step (one_machine (boxed 1) 12 10 None) = (Ok tt, m')
     ∧ bounding_box_size (boxed 1 [one_param None]) = Some 1
     ∧ anchor_of (self m') (one_param None) = Some 1%nat
     ∧ elems (heap (world m') 1%nat) !! 0%nat = Some 10
     ∧ elems (heap (world m') 0%nat) !! 0%nat = Some 12
     ∧ ¬ (10 - 1 <= 12 <= 10 + 1)).
Proof.
  split.
  - destruct (step_value (one_machine (boxed (-1)) 5 5 (Some (scalar 0)))
                (boxed (-1) [one_param (Some (scalar 0))])
                (one_param (Some (scalar 0))) (scalar 0))
      as (m' & c & E & Hval).
    + apply one_machine_ready; simpl; [done|lra|lra].
    + by apply one_machine_separated.
    + apply one_machine_group.
    + left.
    + done.
    + pose proof (frame_step (one_machine (boxed (-1)) 5 5 (Some (scalar 0)))) as F.
      rewrite E in F. simpl in F.
      exists m'. split_and!; try done.
      * by rewrite (fr_anchor _ _ _ F).
      * rewrite (fr_heap _ _ _ F); [done|].
        intros (gq & Hq & Heq & _). apply list_elem_of_singleton in Hq as ->. done.
      * assert (H : elems (heap (world m') 0%nat) !! 0%nat
                    = Some (box (boxed (-1) [one_param (Some (scalar 0))]) 5
                              (5 - 0.5 * 0.04
                                   * drift_at (boxed (-1) [one_param (Some (scalar 0))]) 5 0 5
                               + sqrt 0.04 * (0 + 1 * 0)))).
        { apply (Hval 0%nat 5 0 5); [done|done|by exists 1%nat|done]. }
        rewrite H. f_equal. unfold box, drift_at, nonzero. simpl.
        rewrite bool_decide_eq_true_2 by lra.
        unfold clamp1, Rmin, Rmax. repeat destruct (Rle_dec _ _); lra.
      * lra.
  - destruct (step_ok (one_machine (boxed 1) 12 10 None)) as (m' & E).
    { by apply one_machine_ready_no_grad. }
    pose proof (frame_step (one_machine (boxed 1) 12 10 None)) as F.
    rewrite E in F. simpl in F.
    assert (Hnone : ∀ l, ¬ written (occurrences (param_groups (self (one_machine (boxed 1) 12 10 None)))) l).
    { intros l (gq & Hq & _ & Hsome). apply list_elem_of_singleton in Hq as ->.
      by destruct Hsome. }
    exists m'. split_and!; try done.
    + by rewrite (fr_anchor _ _ _ F).
    + by rewrite (fr_heap _ _ _ F).
    + by rewrite (fr_heap _ _ _ F).
    + lra.
Qed.

(** ** The noise *)

(** C5.  Without [save_noise] the list [self.noise] is empty after every
    [step]; with it, it holds after a [step], whatever it held before,
    exactly the tensors that [torch.normal] returned, one for each
    occurrence of a parameter that had a gradient and in the order of the
    visit: its [k]-th entry is the tensor drawn for the [k]-th such
    parameter. *)
Theorem step_noise_log (m : Machine) :
  (save_noise (self m) = false → noise (self (step m).2) = Some [])
  ∧ (save_noise (self m) = true → step_ready m →
     ∃ m' log, step m = (Ok tt, m')
       ∧ noise (self m') = Some log
       ∧ log = draws (rng (world m)) (default_dtype (world m))
                     (occurrences (param_groups (self m)))
       ∧ length log = length (with_grad (occurrences (param_groups (self m))))
       ∧ ∀ k g p grad,
           with_grad (occurrences (param_groups (self m))) !! k = Some (g, p) →
           p_grad p = Some grad →
           log !! k = Some (noise_for m k g grad)).
Proof.
  split.
  - intros Hs. by rewrite (fr_log _ _ _ (frame_step m)).
  - intros Hs Hr. destruct (step_log m Hr) as (m' & E & Hn).
    rewrite Hs in Hn. eexists m', _. split; [done|]. split; [done|].
    split; [done|]. split; [apply length_draws|].
    intros k g p grad Hk Hgrad. by apply (draws_lookup _ _ _ k g p grad).
Qed.

Lemma step_noise_log_witness :
  ∃ m', step two_machine = (Ok tt, m')
    ∧ noise (self m') = Some [noise_for two_machine 0 two_group (scalar 2)].
Proof.
  destruct (proj2 (step_noise_log two_machine) eq_refl two_machine_ready)
    as (m' & log & E & Hn & _ & Hlen & Hlog).
  exists m'. split; [done|]. rewrite Hn. f_equal.
  specialize (Hlog 0%nat two_group (mkParam 0 (Some (scalar 2))) (scalar 2)
                eq_refl eq_refl).
  rewrite two_machine_occurrences in Hlen.
  destruct log as [|t [|t' log]]; [done| |done].
  by injection Hlog as ->.
Defined.

(** C9, as the code has it.  For the [k]-th parameter with a gradient
    that [step] visits, the tensor [t] that [torch.normal] returns is the
    noise added to the parameter and, when noise is saved, the [k]-th
    entry of [self.noise].  It has the size of the parameter and of [dw]
    and the device of [dw], which is the parameter's since the gradient
    lies on the device of its parameter; its elements are the generator's
    next standard normal samples times [noise_level] (mean 0); its dtype
    is the default dtype. *)
Theorem noise_draw (m : Machine) (k : nat) (g : Group) (p : Param) (grad : Tensor) :
  step_ready m → separated m →
  with_grad (occurrences (param_groups (self m))) !! k = Some (g, p) →
  p_grad p = Some grad →
  t_device grad = t_device (heap (world m) (p_data p)) →
  ∃ m' t, step m = (Ok tt, m')
    ∧ (save_noise (self m) = true →
       ∃ log, noise (self m') = Some log ∧ log !! k = Some t)
    ∧ (∀ i v gr a n,
         elems (heap (world m) (p_data p)) !! i = Some v →
         elems grad !! i = Some gr →
         (needs_anchor g = true →
            ∃ l, anchor_of (self m) p = Some l
                 ∧ elems (heap (world m) l) !! i = Some a) →
         elems t !! i = Some n →
         elems (heap (world m') (p_data p)) !! i
         = Some (box g a (v - 0.5 * lr g * drift_at g v gr a + sqrt (lr g) * n)))
    ∧ size t = size (heap (world m) (p_data p))
    ∧ size t = size (mul_scalar grad (temperature g))
    ∧ t_device t = t_device (heap (world m) (p_data p))
    ∧ t_device t = t_device (mul_scalar grad (temperature g))
    ∧ t_dtype t = default_dtype (world m)
    ∧ ∃ c, ∀ i, (i < size t)%nat →
        elems t !! i
        = Some (0 + noise_level g * samples (rng (world m)) (c + i)%nat).
Proof.
  intros Hr Hsep Hk Hgrad Hdev.
  destruct (step_trace m k g p grad Hr Hsep Hk Hgrad) as (m' & E & Hval).
  assert (Hocc : (g, p) ∈ occurrences (param_groups (self m))).
  { apply elem_of_with_grad. by eapply list_elem_of_lookup_2. }
  exists m', (noise_for m k g grad). split; [done|]. split.
  { intros Hs. destruct (step_log m Hr) as (m'' & E' & Hn).
    assert (m'' = m') as -> by congruence. rewrite Hs in Hn.
    eexists. split; [exact Hn|]. by apply (draws_lookup _ _ _ k g p grad). }
  split; [exact Hval|].
  unfold noise_for. rewrite size_normal_val, size_mul_scalar.
  split; [apply (Hr g p grad Hocc Hgrad)|]. split_and!; try done.
  eexists. intros i Hi. rewrite normal_val_lookup by done. reflexivity.
Qed.

Lemma noise_draw_witness :
  ∃ m' t, step two_machine = (Ok tt, m')
    ∧ noise (self m') = Some [t]
    ∧ size t = 1%nat ∧ t_device t = Cpu ∧ t_dtype t = Float32
    ∧ elems t !! 0%nat = Some (0 + 1 * 1).
Proof.
  destruct (noise_draw two_machine 0 two_group (mkParam 0 (Some (scalar 2))) (scalar 2))
    as (m' & t & E & Hlog & _ & Hsz & _ & Hdev & _ & Hdt & c & Hel).
  - apply two_machine_ready.
  - apply two_machine_separated.
  - reflexivity.
  - reflexivity.
  - reflexivity.
  - destruct (Hlog eq_refl) as (log & Hn & Hk).
    destruct (step_log two_machine two_machine_ready) as (m'' & E' & Hn').
    assert (m'' = m') as -> by congruence.
    rewrite Hn in Hn'. injection Hn' as ->. simpl in Hk. injection Hk as <-.
    eexists m', _. split; [done|]. split; [exact Hn|]. by split_and!.
Defined.

(** C9 as stated fails for the dtype: for a float64 parameter, with the
    default dtype float32, the tensor that [step] draws (and saves) is
    float32, while the parameter and its gradient are float64. *)
Lemma noise_draw_counterexample :
  ∃ m' t, step double_machine = (Ok tt, m')
    ∧ noise (self m') = Some [t]
    ∧ t_dtype t = Float32
    ∧ t_dtype (heap (world double_machine) 0%nat) = Float64
    ∧ (∃ grad, p_grad double_param = Some grad ∧ t_dtype grad = Float64)
    ∧ t_dtype t ≠ t_dtype (heap (world double_machine) 0%nat).
Proof.
  destruct (step_log double_machine double_machine_ready) as (m' & E & Hn).
  simpl in Hn. eexists m', _. split; [done|]. split; [exact Hn|].
  split_and!; try done. eexists. split; reflexivity.
Qed.

(** ** The scenarios of the specification *)

(** Value 10, gradient 2, [lr = 0.04], temperature 1, no decay, no
    localization, noise forced to zero: the new value is 9.96. *)
Example scenario_gradient :
  ∃ m', step (one_machine vanilla 10 10 (Some (scalar 2))) = (Ok tt, m')
        ∧ elems (heap (world m') 0%nat) !! 0%nat = Some 9.96.
Proof.
  destruct (step_value (one_machine vanilla 10 10 (Some (scalar 2)))
              (vanilla [one_param (Some (scalar 2))])
              (one_param (Some (scalar 2))) (scalar 2))
    as (m' & c & E & Hval).
  - apply one_machine_ready; simpl; [done|lra|lra].
  - by apply one_machine_separated.
  - apply one_machine_group.
  - left.
  - done.
  - exists m'. split; [done|].
    assert (H : elems (heap (world m') 0%nat) !! 0%nat
                = Some (box (vanilla [one_param (Some (scalar 2))]) 10
                          (10 - 0.5 * 0.04 * drift_at (vanilla [one_param (Some (scalar 2))])
                                                      10 2 10
                           + sqrt 0.04 * (0 + 1 * 0)))).
    { apply (Hval 0%nat 10 2 10); [done|done|by exists 1%nat|done]. }
    rewrite H. f_equal. unfold box, drift_at. simpl. lra.
Qed.

(** Saved value 5, [bounding_box_size = 1], value 7.3 before the clamp:
    6 after it. *)
Example scenario_clamp : clamp1 7.3 (5 - 1) (5 + 1) = 6.
Proof. unfold clamp1, Rmin, Rmax. repeat destruct (Rle_dec _ _); lra. Qed.

(** * Further properties of the code *)

(** ** Construction *)

(** X1.  Construction only allocates: every tensor object that existed
    before it (the parameters among them) is as it was, nothing is drawn
    from the generator, and the default dtype is not changed. *)
Theorem init_keeps_store (ps : list GroupSpec) (d : Defaults) (save : bool) (w : World) :
  let m0 := init ps d save w in
  (next_loc w ≤ next_loc (world m0))%nat
  ∧ (∀ l, (l < next_loc w)%nat → heap (world m0) l = heap w l)
  ∧ rng (world m0) = rng w
  ∧ default_dtype (world m0) = default_dtype w.
Proof.
  unfold init. simpl.
  destruct (check_arguments_store d w) as [Hnext Hheap].
  destruct (check_arguments_generator d w) as [Hrng Hdt].
  set (m := mkMachine _ (check_arguments d w)).
  destruct (below_foldl_save_initial_group (add_param_group d <$> ps) m) as [H1 H2 H3 H4].
  simpl in *. rewrite Hnext in *. split_and!.
  - done.
  - intros l Hl. rewrite H2 by done. by rewrite Hheap.
  - congruence.
  - congruence.
Qed.

(** X2.  When every group has [localization = 0] and
    [bounding_box_size = 0] (the number, not [None]), construction saves
    nothing: [self.state] is empty and no tensor object is allocated. *)
Theorem init_saves_nothing (ps : list GroupSpec) (d : Defaults) (save : bool) (w : World) :
  (∀ g, g ∈ add_param_group d <$> ps →
        localization g = 0 ∧ bounding_box_size g = Some 0) →
  init ps d save w
  = mkMachine (mkSGLD (add_param_group d <$> ps) ∅ save None) (check_arguments d w).
Proof.
  intros Hgs. unfold init. simpl.
  generalize (mkMachine (mkSGLD (add_param_group d <$> ps) ∅ save None) (check_arguments d w)).
  revert Hgs. generalize (add_param_group d <$> ps) as gs.
  induction gs as [|g gs IH]; intros Hgs m; simpl; [done|].
  destruct (Hgs g) as [Hl Hb]; [left|].
  rewrite save_initial_group_skip by done. apply IH.
  intros g' Hg'. apply Hgs. by right.
Qed.

Lemma init_saves_nothing_witness :
  state (self (init [plain [left_param; right_param]] zero_box true pair_world)) = ∅
  ∧ next_loc (world (init [plain [left_param; right_param]] zero_box true pair_world))
    = 2%nat.
Proof.
  rewrite (init_saves_nothing [plain [left_param; right_param]] zero_box true pair_world).
  - split; [reflexivity|]. apply check_arguments_store.
  - intros g Hg. apply list_elem_of_singleton in Hg as ->. by split.
Defined.

(** X3.  A saved initial parameter is a tensor object allocated by the
    construction (none that existed before), and it is the saved object
    of one parameter only. *)
Theorem init_saves_own_objects (ps : list GroupSpec) (d : Defaults) (save : bool)
    (w : World) (p q : Param) (l : loc) :
  let m0 := init ps d save w in
  anchor_of (self m0) p = Some l →
  (next_loc w ≤ l < next_loc (world m0))%nat
  ∧ (anchor_of (self m0) q = Some l → p_data q = p_data p).
Proof.
  intros m0 Hp. destruct (own_init ps d save w) as [Hrange Hinj].
  split; [by apply (Hrange p)|]. intros Hq. by apply (Hinj p q l).
Qed.

Lemma init_saves_own_objects_witness :
  let m0 := init [plain [left_param; right_param]] localized false pair_world in
  (2 ≤ 2 < next_loc (world m0))%nat
  ∧ (anchor_of (self m0) right_param = Some 2%nat → p_data right_param = 0%nat).
Proof.
  apply (init_saves_own_objects [plain [left_param; right_param]] localized false
           pair_world left_param right_param 2).
  unfold init, save_initial_group, nonzero. simpl.
  rewrite bool_decide_eq_true_2 by lra. cbn [orb].
  rewrite !anchor_of_save_initial. simpl.
  by rewrite (proj1 (check_arguments_store localized pair_world)).
Defined.

(** X4.  The first [step] after construction returns: every saved initial
    parameter that [step] reads (for the localization term or for the
    bounding box) was saved by the construction, with the size of its
    parameter, and none of them is the data of a parameter. *)
Theorem init_then_step_returns (ps : list GroupSpec) (d : Defaults) (save : bool)
    (w : World) :
  allocated ps w → fits (add_param_group d <$> ps) w →
  let m0 := init ps d save w in
  step_ready m0
  ∧ anchors_apart (occurrences (param_groups (self m0))) m0
  ∧ ∃ m', step m0 = (Ok tt, m').
Proof.
  intros Hall Hfit m0. destruct (init_ready ps d save w Hall Hfit) as [Hr Hap].
  split; [done|]. split; [done|]. by apply step_ok.
Qed.

Lemma init_then_step_returns_witness :
  ∃ m', step (init [plain [left_param; right_param]] localized false pair_world)
        = (Ok tt, m').
Proof.
  apply (init_then_step_returns [plain [left_param; right_param]] localized false
           pair_world).
  - intros s q Hs Hq. apply list_elem_of_singleton in Hs as ->.
    apply elem_of_cons in Hq as [->|Hq]; [simpl; lia|].
    apply list_elem_of_singleton in Hq as ->. simpl. lia.
  - intros g p grad Hg Hp Hgrad. apply list_elem_of_singleton in Hg as ->.
    apply elem_of_cons in Hp as [->|Hp].
    + injection Hgrad as <-. simpl. split_and!; [lra|lra|done].
    + apply list_elem_of_singleton in Hp as ->. discriminate Hgrad.
Defined.

(** ** Errors of [step] *)

(** X5.  When a group has [localization] non-zero and a parameter with a
    gradient has no saved initial parameter, its update raises
    [KeyError] on line 107, before the parameter is written: nothing has
    changed but [self.state], which has got the parameter's (empty)
    dictionary. *)
Theorem update_param_no_initial_param (g : Group) (p : Param) (grad : Tensor)
    (m : Machine) :
  p_grad p = Some grad →
  size grad = size (heap (world m) (p_data p)) →
  nonzero (localization g) = true →
  anchor_of (self m) p = None →
  update_param g p m
  = (Raise (KeyError "initial_param"),
     set_self (set_state <[p_data p := state_of (self m) p]>) m).
Proof.
  intros Hgrad Hsz Hloc Ha. unfold update_param. rewrite Hgrad.
  rewrite bind_run. unfold langevin. rewrite bind_run. simpl.
  set (m0 := set_self _ m).
  assert (Ha0 : state_of (self m0) p !! "initial_param"%string = None).
  { subst m0. simpl. fold (anchor_of (set_state <[p_data p := state_of (self m) p]> (self m)) p).
    by rewrite anchor_of_self_state. }
  rewrite bind_run. unfold drift. rewrite Hloc, bind_run.
  destruct (nonzero (weight_decay g)).
  - rewrite bind_run. simpl. unfold add_alpha.
    rewrite decide_True by (by rewrite size_mul_scalar). simpl.
    rewrite bind_run. unfold initial_param. by rewrite Ha0.
  - simpl. rewrite bind_run. unfold initial_param. by rewrite Ha0.
Qed.

Lemma update_param_no_initial_param_witness :
  (update_param (pulled [one_param (Some (scalar 2))]) (one_param (Some (scalar 2)))
     (bare_machine pulled 12 (Some (scalar 2)))).1
  = Raise (KeyError "initial_param").
Proof.
  rewrite (update_param_no_initial_param _ _ (scalar 2)); try done.
  unfold nonzero. simpl. apply bool_decide_eq_true_2. lra.
Defined.

(** X6.  When a group has a bounding box but no localization and a
    parameter with a gradient has no saved initial parameter, its update
    raises [KeyError] only on line 124: the parameter has been updated by
    then, and is left at the value before the clamp. *)
Theorem update_param_no_box_anchor (g : Group) (p : Param) (grad : Tensor)
    (m : Machine) :
  p_grad p = Some grad →
  0 <= lr g → 0 <= noise_level g →
  size grad = size (heap (world m) (p_data p)) →
  nonzero (localization g) = false →
  truthy (bounding_box_size g) = true →
  anchor_of (self m) p = None →
  log_ok m →
  ∃ m1, update_param g p m = (Raise (KeyError "initial_param"), m1)
    ∧ ∀ i v gr n,
        elems (heap (world m) (p_data p)) !! i = Some v →
        elems grad !! i = Some gr →
        elems (drawn g grad m) !! i = Some n →
        elems (heap (world m1) (p_data p)) !! i
        = Some (v - 0.5 * lr g * (gr * temperature g + weight_decay g * v)
                + sqrt (lr g) * n).
Proof.
  intros Hgrad Hlr Hnl Hsz Hloc Hbox Ha Hlog.
  destruct (langevin_run g p grad m) as (m1 & E & _ & _ & Hval); try done.
  { by rewrite Hloc. }
  pose proof (respects_langevin g p grad m) as F. rewrite E in F. simpl in F.
  exists m1. split.
  - unfold update_param. rewrite Hgrad, bind_run, E. unfold rebound.
    destruct (bounding_box_size g) as [b|]; [|done]. simpl in Hbox. rewrite Hbox.
    rewrite bind_run. unfold initial_param. fold (anchor_of (self m1) p).
    by rewrite (fr_anchor _ _ _ F), Ha.
  - intros i v gr n Hv Hgr Hn. rewrite (Hval i v gr 0 n); try done.
    + f_equal. unfold drift_at. rewrite (nonzero_false _ Hloc). lra.
    + by rewrite Hloc.
Qed.

Lemma update_param_no_box_anchor_witness :
  ∃ m1, update_param (boxed 1 [one_param (Some (scalar 2))]) (one_param (Some (scalar 2)))
          (bare_machine (boxed 1) 10 (Some (scalar 2)))
        = (Raise (KeyError "initial_param"), m1)
    ∧ elems (heap (world m1) 0%nat) !! 0%nat = Some 9.96.
Proof.
  destruct (update_param_no_box_anchor (boxed 1 [one_param (Some (scalar 2))])
              (one_param (Some (scalar 2))) (scalar 2)
              (bare_machine (boxed 1) 10 (Some (scalar 2))))
    as (m1 & E & Hval); try done.
  - simpl. lra.
  - simpl. lra.
  - unfold nonzero. simpl. apply bool_decide_eq_false_2. intros H. by apply H.
  - unfold nonzero. simpl. apply bool_decide_eq_true_2. lra.
  - exists m1. split; [done|].
    assert (H : elems (heap (world m1) 0%nat) !! 0%nat
                = Some (10 - 0.5 * 0.04 * (2 * 1 + 0 * 10) + sqrt 0.04 * (0 + 1 * 0))).
    { by apply (Hval 0%nat 10 2 (0 + 1 * 0)). }
    rewrite H. f_equal. lra.
Defined.

(** ** A [step] as a whole *)

(** X7.  When no parameter carries a gradient, [step] returns and does
    nothing but set [self.noise] to the empty list, whatever the state of
    the optimizer. *)
Theorem step_without_gradients (m : Machine) :
  (∀ g p, g ∈ param_groups (self m) → p ∈ params g → p_grad p = None) →
  step m = (Ok tt, set_self (set_noise (Some [])) m).
Proof.
  intros Hnone. rewrite step_run.
  assert (H : ∀ gp, gp ∈ occurrences (param_groups (self m)) → p_grad gp.2 = None).
  { intros [g p] Hin. apply elem_of_occurrences in Hin as [Hg Hp]. by apply (Hnone g). }
  revert H. generalize (set_self (set_noise (Some [])) m) as m0.
  generalize (occurrences (param_groups (self m))) as occ.
  induction occ as [|gp occ IH]; intros m0 H; [done|].
  simpl. rewrite bind_run. unfold visit at 1, update_param.
  rewrite (H gp) by left. simpl. apply IH. intros gq Hq. apply H. by right.
Qed.

Lemma step_without_gradients_witness :
  step (one_machine (boxed 1) 12 10 None)
  = (Ok tt, set_self (set_noise (Some [])) (one_machine (boxed 1) 12 10 None)).
Proof.
  apply step_without_gradients. intros g p Hg Hp.
  apply list_elem_of_singleton in Hg as ->.
  by apply list_elem_of_singleton in Hp as ->.
Defined.

(** X9.  A [step] that returns leaves the optimizer ready for the next
    one: the groups, the saved initial parameters and the sizes of all
    tensor objects are as before, so the same gradients can be applied
    again. *)
Theorem step_keeps_ready (m : Machine) :
  step_ready m → separated m →
  (∃ m', step m = (Ok tt, m'))
  ∧ step_ready (step m).2
  ∧ separated (step m).2.
Proof.
  intros Hr Hsep. split; [by apply step_ok|].
  split; [by apply step_ready_next|by apply separated_next].
Qed.

Lemma step_keeps_ready_witness :
  step_ready (step (one_machine pulled 12 10 (Some (scalar 0)))).2.
Proof.
  apply (step_keeps_ready (one_machine pulled 12 10 (Some (scalar 0)))).
  - apply one_machine_ready; simpl; [done|lra|lra].
  - by apply one_machine_separated.
Defined.

(** X10.  Line 100 gives every parameter that [step] updates a
    dictionary in [self.state], empty if it had none; the dictionaries
    that were there, and with them the saved initial parameters, are as
    before, and no other key is added. *)
Theorem step_registers_state (m : Machine) :
  step_ready m →
  ∃ m', step m = (Ok tt, m')
    ∧ ∀ k, state (self m') !! k
           = if decide (k ∈ data_locs (with_grad (occurrences (param_groups (self m)))))
             then Some (default ∅ (state (self m) !! k))
             else state (self m) !! k.
Proof.
  intros Hr. rewrite step_run.
  apply (run_state _ (set_self (set_noise (Some [])) m));
    [by apply Ready_reset|apply log_ok_reset].
Qed.

Lemma step_registers_state_witness :
  ∃ m', step two_machine = (Ok tt, m')
    ∧ state (self m') !! 0%nat = Some ∅
    ∧ state (self m') !! 1%nat = None.
Proof.
  destruct (step_registers_state two_machine two_machine_ready) as (m' & E & Hst).
  exists m'. split; [done|]. by rewrite !Hst.
Defined.

(** ** The bounding box *)

(** X11.  The clamp of [step] is hard: with a box of positive size [b],
    an element whose updated value [y] lies in the box keeps it, one
    above the box is set to the upper face [a + b], one below to the
    lower face [a - b] ([a] the saved initial element). *)
Theorem step_clamps_to_faces (m : Machine) (g : Group) (p : Param) (grad : Tensor)
    (b : R) :
  step_ready m → separated m →
  g ∈ param_groups (self m) → p ∈ params g → p_grad p = Some grad →
  bounding_box_size g = Some b → 0 < b →
  ∃ m' l c, step m = (Ok tt, m')
    ∧ anchor_of (self m) p = Some l
    ∧ ∀ i x, elems (heap (world m') (p_data p)) !! i = Some x →
        ∃ v gr a,
          elems (heap (world m) (p_data p)) !! i = Some v
          ∧ elems grad !! i = Some gr
          ∧ elems (heap (world m) l) !! i = Some a
          ∧ let y := unclamped g v gr a (samples (rng (world m)) (c + i)%nat) in
            (a - b <= y <= a + b → x = y)
            ∧ (a + b <= y → x = a + b)
            ∧ (y <= a - b → x = a - b).
Proof.
  intros Hr Hsep Hg Hp Hgrad Hb Hpos.
  destruct (step_boxed m g p grad b) as (m' & l & c & E & Hl & _ & _ & Hval);
    try done; [lra|].
  exists m', l, c. split; [done|]. split; [done|]. intros i x Hx.
  destruct (Hval i x Hx) as (v & gr & a & Hv & Hgr & Ha & ->).
  exists v, gr, a. do 3 (split; [done|]). cbv zeta. split_and!.
  - apply clamp1_inside.
  - apply clamp1_above. lra.
  - apply clamp1_under. lra.
Qed.

Lemma step_clamps_to_faces_witness :
  ∃ m', step (one_machine (boxed 1) 5 5 (Some (scalar (-115)))) = (Ok tt, m')
        ∧ elems (heap (world m') 0%nat) !! 0%nat = Some 6.
Proof.
  destruct (step_clamps_to_faces (one_machine (boxed 1) 5 5 (Some (scalar (-115))))
              (boxed 1 [one_param (Some (scalar (-115)))])
              (one_param (Some (scalar (-115)))) (scalar (-115)) 1)
    as (m' & l & c & E & Hl & Hval).
  - apply one_machine_ready; simpl; [done|lra|lra].
  - by apply one_machine_separated.
  - apply one_machine_group.
  - left.
  - done.
  - done.
  - lra.
  - exists m'. split; [done|].
    rewrite one_machine_anchor in Hl. injection Hl as <-.
    pose proof (frame_step (one_machine (boxed 1) 5 5 (Some (scalar (-115))))) as F.
    rewrite E in F. simpl in F.
    pose proof (fr_size _ _ _ F 0%nat) as Hsz. simpl in Hsz.
    destruct (lookup_lt_is_Some_2 (elems (heap (world m') 0%nat)) 0) as [x Hx].
    { unfold size in Hsz. rewrite Hsz. simpl. lia. }
    destruct (Hval 0%nat x Hx) as (v & gr & a & Hv & Hgr & Ha & _ & Habove & _).
    injection Hv as <-. injection Hgr as <-. injection Ha as <-.
    rewrite Hx. f_equal. replace 6 with (5 + 1) by lra. apply Habove.
    unfold unclamped, drift_at. simpl. rewrite sqrt_0_04. lra.
Defined.

(** X12.  With a bounding box of negative size the box is empty, and
    the clamp puts every element of an updated parameter at the saved
    initial element plus the size, whatever the gradient and the noise. *)
Theorem step_negative_box (m : Machine) (g : Group) (p : Param) (grad : Tensor)
    (b : R) :
  step_ready m → separated m →
  g ∈ param_groups (self m) → p ∈ params g → p_grad p = Some grad →
  bounding_box_size g = Some b → b < 0 →
  ∃ m' l, step m = (Ok tt, m')
    ∧ anchor_of (self m') p = Some l
    ∧ ∀ i x, elems (heap (world m') (p_data p)) !! i = Some x →
        ∃ a, elems (heap (world m') l) !! i = Some a ∧ x = a + b.
Proof.
  intros Hr Hsep Hg Hp Hgrad Hb Hneg.
  destruct (step_boxed m g p grad b) as (m' & l & c & E & _ & Hl & Hkeep & Hval);
    try done; [lra|].
  exists m', l. split; [done|]. split; [done|]. intros i x Hx.
  destruct (Hval i x Hx) as (v & gr & a & _ & _ & Ha & ->).
  exists a. rewrite Hkeep. split; [done|]. apply clamp1_crossed. lra.
Qed.

Lemma step_negative_box_witness :
  ∃ m' l, step (one_machine (boxed (-1)) 5 5 (Some (scalar 0))) = (Ok tt, m')
    ∧ anchor_of (self m') (one_param (Some (scalar 0))) = Some l
    ∧ ∀ i x, elems (heap (world m') 0%nat) !! i = Some x →
        ∃ a, elems (heap (world m') l) !! i = Some a ∧ x = a + -1.
Proof.
  apply (step_negative_box (one_machine (boxed (-1)) 5 5 (Some (scalar 0)))
           (boxed (-1) [one_param (Some (scalar 0))])
           (one_param (Some (scalar 0))) (scalar 0) (-1)).
  - apply one_machine_ready; simpl; [done|lra|lra].
  - by apply one_machine_separated.
  - apply one_machine_group.
  - left.
  - done.
  - done.
  - lra.
Defined.

(** X13.  The box is an invariant of [step]: when every parameter of the
    groups with a box of positive size lies in its box (those without a
    gradient too), the same holds after a [step]. *)
Theorem step_keeps_in_box (m : Machine) :
  step_ready m → separated m → in_box m →
  ∃ m', step m = (Ok tt, m') ∧ in_box m'.
Proof.
  intros Hr Hsep Hbox. destruct (step_ok m Hr) as (m' & E).
  exists m'. split; [done|].
  pose proof (in_box_next m Hr Hsep Hbox) as H. by rewrite E in H.
Qed.

Lemma step_keeps_in_box_witness :
  ∃ m', step (one_machine (boxed 1) 5 5 (Some (scalar (-115)))) = (Ok tt, m')
        ∧ in_box m'.
Proof.
  apply (step_keeps_in_box (one_machine (boxed 1) 5 5 (Some (scalar (-115))))).
  - apply one_machine_ready; simpl; [done|lra|lra].
  - by apply one_machine_separated.
  - by apply one_machine_in_box.
Defined.

(** X14.  After construction, and after any number of calls of [step]
    with the gradients given at construction, every call has returned
    and every parameter of a group with a bounding box of positive size
    lies in its box. *)
Theorem steps_after_init_in_box (ps : list GroupSpec) (d : Defaults) (save : bool)
    (w : World) (n : nat) :
  allocated ps w → fits (add_param_group d <$> ps) w →
  NoDup (data_locs (occurrences (add_param_group d <$> ps))) →
  ∃ m', steps n (init ps d save w) = (Ok tt, m') ∧ in_box m'.
Proof.
  intros Hall Hfit Hnd.
  destruct (init_ready ps d save w Hall Hfit) as [Hr Hap].
  destruct (steps_keep n (init ps d save w)) as (m' & E & _ & _ & Hbox); try done.
  - split; [|done]. by rewrite (proj1 (init_fields ps d save w)).
  - by apply in_box_init.
  - by exists m'.
Qed.

Lemma steps_after_init_in_box_witness :
  ∃ m', steps 3 (init [plain [left_param; right_param]] box_args false pair_world)
        = (Ok tt, m')
    ∧ in_box m'.
Proof.
  apply (steps_after_init_in_box [plain [left_param; right_param]] box_args false
           pair_world 3).
  - intros s q Hs Hq. apply list_elem_of_singleton in Hs as ->.
    apply elem_of_cons in Hq as [->|Hq]; [simpl; lia|].
    apply list_elem_of_singleton in Hq as ->. simpl. lia.
  - intros g p grad Hg Hp Hgrad. apply list_elem_of_singleton in Hg as ->.
    apply elem_of_cons in Hp as [->|Hp].
    + injection Hgrad as <-. simpl. split_and!; [lra|lra|done].
    + apply list_elem_of_singleton in Hp as ->. discriminate Hgrad.
  - change (NoDup [0%nat; 1%nat]).
    apply NoDup_cons_2; [|apply NoDup_singleton].
    intros H. by apply list_elem_of_singleton in H.
Defined.

(** ** The localization term *)

(** X15.  The localization term pulls towards the saved initial
    parameter: without noise, decay and box, an element with gradient 0
    moves from [v] to [a + (1 - 0.5*lr*localization) * (v - a)], which for
    [0 < lr*localization <= 2] is at most as far from the saved element
    [a] as [v] was, on the same side. *)
Theorem localization_pulls_back (m : Machine) (g : Group) (p : Param) (grad : Tensor) :
  step_ready m → separated m →
  (∀ k, samples (rng (world m)) k = 0) →
  g ∈ param_groups (self m) → p ∈ params g → p_grad p = Some grad →
  weight_decay g = 0 → truthy (bounding_box_size g) = false →
  0 < lr g * localization g <= 2 →
  ∃ m' l, step m = (Ok tt, m')
    ∧ anchor_of (self m) p = Some l
    ∧ ∀ i v a,
        elems (heap (world m) (p_data p)) !! i = Some v →
        elems grad !! i = Some 0 →
        elems (heap (world m) l) !! i = Some a →
        ∃ x, elems (heap (world m') (p_data p)) !! i = Some x
          ∧ x - a = (1 - 0.5 * lr g * localization g) * (v - a)
          ∧ 0 <= 1 - 0.5 * lr g * localization g < 1
          ∧ Rabs (x - a) <= Rabs (v - a).
Proof.
  intros Hr Hsep Hzero Hg Hp Hgrad Hwd Hbox Hrate.
  destruct (step_value m g p grad Hr Hsep Hg Hp Hgrad) as (m' & c & E & Hval).
  assert (Hocc : (g, p) ∈ occurrences (param_groups (self m)))
    by (by apply elem_of_occurrences).
  assert (Hloc : nonzero (localization g) = true).
  { apply bool_decide_eq_true_2. intros H0. rewrite H0 in Hrate. lra. }
  destruct (rd_anchor _ _ _ _ (Hr g p grad Hocc Hgrad) (nonzero_needs_anchor _ Hloc))
    as (l & Hl & _).
  exists m', l. split; [done|]. split; [done|]. intros i v a Hv Hgr Ha.
  eexists. split.
  - apply (Hval i v 0 a (0 + noise_level g * 0)); try done.
    + intros _. by exists l.
    + rewrite normal_val_lookup by (by eapply lookup_lt_Some). simpl.
      by rewrite Hzero.
  - assert (Hid : ∀ y, box g a y = y).
    { intros y. unfold box. destruct (bounding_box_size g) as [b|]; [|done].
      simpl in Hbox. by rewrite Hbox. }
    rewrite Hid. unfold drift_at. rewrite Hwd.
    set (k := 1 - 0.5 * lr g * localization g).
    assert (Hk : 0 <= k < 1) by (unfold k; lra).
    assert (Heq : v - 0.5 * lr g * (0 * temperature g + 0 * v + localization g * (v - a))
                  + sqrt (lr g) * (0 + noise_level g * 0) - a = k * (v - a))
      by (unfold k; lra).
    split; [done|]. split; [done|].
    rewrite Heq, Rabs_mult, (Rabs_pos_eq k) by lra.
    pose proof (Rabs_pos (v - a)). nra.
Qed.

Lemma localization_pulls_back_witness :
  ∃ m' x, step (one_machine pulled 12 10 (Some (scalar 0))) = (Ok tt, m')
    ∧ elems (heap (world m') 0%nat) !! 0%nat = Some x
    ∧ Rabs (x - 10) <= Rabs (12 - 10).
Proof.
  destruct (localization_pulls_back (one_machine pulled 12 10 (Some (scalar 0)))
              (pulled [one_param (Some (scalar 0))]) (one_param (Some (scalar 0)))
              (scalar 0))
    as (m' & l & E & Hl & Hval).
  - apply one_machine_ready; simpl; [done|lra|lra].
  - by apply one_machine_separated.
  - done.
  - apply one_machine_group.
  - left.
  - done.
  - done.
  - done.
  - simpl. lra.
  - rewrite one_machine_anchor in Hl. injection Hl as <-.
    destruct (Hval 0%nat 12 10) as (x & Hx & _ & _ & Habs); try done.
    by exists m', x.
Defined.

(** ** The noise *)

(** X16.  With [save_noise] set, the tensor that the update of a
    parameter appends to [self.noise] is the very noise it adds to the
    parameter: each element moves by the drift and by the square root of
    [lr] times the element of the saved tensor. *)
Theorem saved_noise_is_applied (g : Group) (p : Param) (grad : Tensor) (m : Machine)
    (log : list Tensor) :
  ready g p grad m → save_noise (self m) = true → noise (self m) = Some log →
  ∃ m1 t, langevin g p grad m = (Ok tt, m1)
    ∧ noise (self m1) = Some (log ++ [t])
    ∧ ∀ i v gr a n,
        elems (heap (world m) (p_data p)) !! i = Some v →
        elems grad !! i = Some gr →
        (nonzero (localization g) = true →
           ∃ l, anchor_of (self m) p = Some l ∧ elems (heap (world m) l) !! i = Some a) →
        elems t !! i = Some n →
        elems (heap (world m1) (p_data p)) !! i
        = Some (v - 0.5 * lr g * drift_at g v gr a + sqrt (lr g) * n).
Proof.
  intros Hr Hsave Hlog.
  destruct (langevin_spec g p grad m Hr) as (m1 & E & _ & Hn & Hval).
  { intros _. by rewrite Hlog. }
  exists m1, (drawn g grad m). split; [done|]. split; [|done].
  by rewrite Hn, Hsave, Hlog.
Qed.

Lemma saved_noise_is_applied_witness :
  ∃ m1 t, langevin two_group (mkParam 0 (Some (scalar 2))) (scalar 2)
            (set_self (set_noise (Some [])) two_machine) = (Ok tt, m1)
    ∧ noise (self m1) = Some [t].
Proof.
  destruct (saved_noise_is_applied two_group (mkParam 0 (Some (scalar 2))) (scalar 2)
              (set_self (set_noise (Some [])) two_machine) [])
    as (m1 & t & E & Hn & _).
  - apply Ready_reset with (occ := occurrences (param_groups (self two_machine)));
      [apply two_machine_ready|left|done].
  - done.
  - done.
  - by exists m1, t.
Defined.

(** ** What [step] never does *)

(** X17.  Whether it returns or raises, [step] writes no tensor object
    but the data of the parameters that carry a gradient, changes the
    size of none, and leaves the groups, the flag [save_noise], the saved
    initial parameters and the default dtype as they are. *)
Theorem step_writes_only_updated (m : Machine) :
  let m' := (step m).2 in
  (∀ l, ¬ written (occurrences (param_groups (self m))) l →
        heap (world m') l = heap (world m) l)
  ∧ (∀ l, size (heap (world m') l) = size (heap (world m) l))
  ∧ param_groups (self m') = param_groups (self m)
  ∧ save_noise (self m') = save_noise (self m)
  ∧ (∀ p, anchor_of (self m') p = anchor_of (self m) p)
  ∧ default_dtype (world m') = default_dtype (world m).
Proof.
  destruct (frame_step m) as [H1 H2 H3 H4 H5 _ _ _ H6]. by split_and!.
Qed.
